(** * Linolium3d backend: the /vectorize preprocessing pipeline

    Shallow embedding of [backend/main.py].  The handler decodes an uploaded
    raster, flattens an alpha channel, binarizes the grayscale image with one
    of three strategies, normalizes polarity, hands the mask to the external
    vectorizer and rewrites the root tag of the SVG it gets back.

    Pixel values are 8-bit (numpy uint8) and are carried as [Z]; counts are
    Python/numpy integers and are carried as [Z] as well (a pixel count is
    far below the 64-bit range).  Text is a list of Unicode code points.
    The two [print] calls and [traceback.print_exc] only write to standard
    output and are left out. *)

From Stdlib Require Import ZArith NArith List String Ascii Bool Lia.
From Stdlib Require Import DecimalString DecimalPos DecimalZ.
Import ListNotations.

Local Open Scope Z_scope.

(** ** Single-channel rasters *)

Module Raster.

(** A single-channel uint8 array, flattened in row-major order. *)
Definition raster := list Z.

Definition is_u8 (v : Z) : Prop := 0 <= v < 256.

(** Every pixel is black (0) or white (255). *)
Definition binary (p : raster) : Prop := Forall (fun v => v = 0 \/ v = 255) p.

(** [np.sum(mask)] for a boolean mask. *)
Fixpoint np_sum (mask : list bool) : Z :=
  match mask with
  | [] => 0
  | b :: m => (if b then 1 else 0) + np_sum m
  end.

(** [processed == k], elementwise. *)
Definition eq_mask (p : raster) (k : Z) : list bool := map (fun v => v =? k) p.

(** [cv2.bitwise_not] on uint8: the complement within 8 bits. *)
Definition not_u8 (v : Z) : Z := Z.land (Z.lnot v) 255.

Definition bitwise_not (p : raster) : raster := map not_u8 p.

(** [cv2.threshold(src, thresh, maxval, cv2.THRESH_BINARY)]: a pixel above
    the cutoff becomes [maxval], any other pixel becomes 0. *)
Definition threshold_binary (src : raster) (thresh maxval : Z) : raster :=
  map (fun v => if thresh <? v then maxval else 0) src.

(** [enumerate]: pixels paired with their flat index. *)
Definition indexed (p : raster) : list (nat * Z) := combine (seq 0 (List.length p)) p.

End Raster.

Import Raster.

(** ** Polarity normalization (main.py, lines 82-86) *)

Definition black_pixels (processed : raster) : Z := np_sum (eq_mask processed 0).
Definition white_pixels (processed : raster) : Z := np_sum (eq_mask processed 255).

(** The guard of the inversion: [black_pixels > white_pixels * 2]. *)
Definition needs_inversion (processed : raster) : bool :=
  white_pixels processed * 2 <? black_pixels processed.

Definition normalize_polarity (processed : raster) : raster :=
  if needs_inversion processed then bitwise_not processed else processed.

(** ** Binarization (main.py, lines 20-30 and 70-80)

    The numeric kernels of OpenCV are taken as parameters: the Gaussian
    weighted neighbourhood mean of [cv2.adaptiveThreshold] (block size 11),
    the 3x3 median blur, and the cutoff Otsu's method selects.  What the
    handler fixes is embedded: which kernel runs, and the comparison that
    turns a pixel into 0 or 255. *)

Section Binarization.

(** Gaussian-weighted mean of the 11x11 neighbourhood of pixel [i]. *)
Variable local_mean : raster -> nat -> Z.
(** [cv2.medianBlur(gray, 3)]. *)
Variable medianBlur3 : raster -> raster.
(** The cutoff chosen by [cv2.THRESH_OTSU]. *)
Variable otsu_level : raster -> Z.

(** [cv2.threshold(gray, 0, 255, THRESH_BINARY + THRESH_OTSU)]: the supplied
    cutoff 0 is replaced by Otsu's, then THRESH_BINARY is applied. *)
Definition otsu_threshold (gray : raster) : raster :=
  threshold_binary gray (otsu_level gray) 255.

Definition apply_median_filter (gray : raster) : raster := medianBlur3 gray.

(** [cv2.adaptiveThreshold(gray, 255, GAUSSIAN_C, THRESH_BINARY, 11, 2)]:
    a pixel above (local mean - 2) becomes 255, any other pixel 0. *)
Definition apply_adaptive_threshold (gray : raster) : raster :=
  map (fun iv => if local_mean gray (fst iv) - 2 <? snd iv then 255 else 0)
      (indexed gray).

Definition binarize (gray : raster) (algorithm : string)
           (manualThreshold : bool) (threshold : Z) : raster :=
  if String.eqb algorithm "adaptive" then
    apply_adaptive_threshold gray
  else
    let gray :=
      if String.eqb algorithm "median-otsu" then apply_median_filter gray
      else gray in
    if manualThreshold then threshold_binary gray threshold 255
    else otsu_threshold gray.

End Binarization.

(** ** Text and the two regular expressions of the SVG rewriter *)

Module Text.

(** Python [str]: a sequence of Unicode code points. *)
Definition text := list N.

(** A literal of the source, code point by code point. *)
Definition str (s : string) : text := map N_of_ascii (list_ascii_of_string s).

Definition dquote : N := 34.
Definition squote : N := 39.
Definition gt : N := 62.

Definition is_not (c : N) : N -> bool := fun x => negb (N.eqb x c).

(** [\s] of Python's [re] on [str] patterns: the code points for which
    [str.isspace] holds. *)
Definition is_space (c : N) : bool :=
  ((9 <=? c) && (c <=? 13) || (28 <=? c) && (c <=? 32) ||
   (c =? 133) || (c =? 160) || (c =? 5760) ||
   (8192 <=? c) && (c <=? 8202) || (c =? 8232) || (c =? 8233) ||
   (c =? 8239) || (c =? 8287) || (c =? 12288))%N.

(** [s.startswith(p)], returning what follows the prefix. *)
Fixpoint starts_with (p s : text) : option text :=
  match p, s with
  | [], _ => Some s
  | a :: p', b :: s' => if N.eqb a b then starts_with p' s' else None
  | _ :: _, [] => None
  end.

(** [f"{n}"] for an integer. *)
Definition format_int (n : Z) : text := str (NilZero.string_of_int (Z.to_int n)).

(** [s.replace(old, new, 1)]: the first occurrence only. *)
Fixpoint replace_first (old new s : text) : text :=
  match starts_with old s with
  | Some r => new ++ r
  | None =>
      match s with
      | [] => []
      | c :: s' => c :: replace_first old new s'
      end
  end.

End Text.

Import Text.

(** A backtracking matcher for the fragment of [re] the handler uses.  A
    pattern is a sequence of atoms; quantifiers are greedy and give back
    characters one at a time, alternatives are tried left to right. *)

Module Regex.

Inductive atom : Type :=
| Lit (t : text)                (* literal text *)
| Plus (cls : N -> bool)        (* one or more of a class, greedy *)
| Star (cls : N -> bool)        (* zero or more of a class, greedy *)
| CapStar (cls : N -> bool)     (* the same, as a capturing group *)
| CapAlt (ts : list text).      (* capturing group of alternatives *)

Definition pattern := list atom.

(** A successful match: the matched text, the groups, the text after. *)
Definition mres : Type := text * list text * text.
Definition cont := text -> option mres.

(** Greedy [cls*] followed by [k]: the longest run first, then shorter
    ones.  The run is returned beside the result of [k]. *)
Fixpoint star (cls : N -> bool) (k : cont) (s : text) : option (text * mres) :=
  match s with
  | c :: s' =>
      if cls c then
        match star cls k s' with
        | Some (run, r) => Some (c :: run, r)
        | None => option_map (pair []) (k s)
        end
      else option_map (pair []) (k s)
  | [] => option_map (pair []) (k [])
  end.

(** Alternation of literals followed by [k], left to right. *)
Fixpoint alt (ts : list text) (k : cont) (s : text) : option (text * mres) :=
  match ts with
  | [] => None
  | t :: ts' =>
      match (match starts_with t s with Some r => k r | None => None end) with
      | Some r => Some (t, r)
      | None => alt ts' k s
      end
  end.

Definition prepend (pre : text) (keep : bool) (r : text * mres) : mres :=
  let '(run, (m, g, rest)) := r in
  (pre ++ run ++ m, if keep then run :: g else g, rest).

(** [re.match]: the pattern anchored at the start of [s]. *)
Fixpoint rmatch (p : pattern) : cont :=
  match p with
  | [] => fun s => Some ([], [], s)
  | a :: p' =>
      let k := rmatch p' in
      fun s =>
        match a with
        | Lit t =>
            match starts_with t s with
            | Some r => option_map (prepend t false) (option_map (pair []) (k r))
            | None => None
            end
        | Plus cls =>
            match s with
            | c :: s' =>
                if cls c then option_map (prepend [c] false) (star cls k s')
                else None
            | [] => None
            end
        | Star cls => option_map (prepend [] false) (star cls k s)
        | CapStar cls => option_map (prepend [] true) (star cls k s)
        | CapAlt ts => option_map (prepend [] true) (alt ts k s)
        end
  end.

(** [re.search]: the leftmost position where the pattern matches; the text
    before the match, the match and the text after it. *)
Fixpoint search (p : pattern) (s : text) : option (text * mres) :=
  match rmatch p s with
  | Some r => Some ([], r)
  | None =>
      match s with
      | [] => None
      | c :: s' =>
          match search p s' with
          | Some (before, r) => Some (c :: before, r)
          | None => None
          end
      end
  end.

(** [re.sub(p, '', s)]: every non-overlapping match, found left to right,
    is deleted.  [fuel] bounds the number of scanning steps. *)
Fixpoint sub_empty_aux (p : pattern) (fuel : nat) (s : text) : text :=
  match fuel with
  | O => s
  | S fuel' =>
      match s with
      | [] => []
      | c :: s' =>
          match rmatch p s with
          | Some (_, _, rest) => sub_empty_aux p fuel' rest
          | None => c :: sub_empty_aux p fuel' s'
          end
      end
  end.

Definition sub_empty (p : pattern) (s : text) : text :=
  sub_empty_aux p (S (List.length s)) s.

End Regex.

Import Regex.

(** ** The SVG rewriter (main.py, lines 113-123) *)

(** The pattern of [re.search]: the text <svg, a capturing group of any
    run of characters other than >, then >. *)
Definition svg_tag_re : pattern :=
  [Lit (str "<svg"); CapStar (is_not gt); Lit [gt]].

Definition sizing_names : list text :=
  [str "width"; str "height"; str "viewBox"; str "style"].

(** The pattern of [re.sub]: one or more [\s], one of the four names as a
    capturing group, an equals sign, a double quote, any run of characters
    other than the double quote, and a double quote. *)
Definition sizing_attr_re : pattern :=
  [Plus is_space; CapAlt sizing_names; Lit (str "=" ++ [dquote]);
   Star (is_not dquote); Lit [dquote]].

(** The attributes the handler appends to the root tag. *)
Definition responsive_attrs (width height : Z) : text :=
  str " width=" ++ [dquote] ++ str "100%" ++ [dquote] ++
  str " height=" ++ [dquote] ++ str "100%" ++ [dquote] ++
  str " viewBox=" ++ [dquote] ++ str "0 0 " ++ format_int width ++ str " " ++
    format_int height ++ [dquote] ++
  str " preserveAspectRatio=" ++ [dquote] ++ str "xMidYMid meet" ++ [dquote] ++
  str " style=" ++ [dquote] ++ str "display:block;margin:auto;" ++ [dquote].

(** [attrs] after [re.sub] has removed the sizing attributes. *)
Definition strip_sizing (attrs : text) : text := sub_empty sizing_attr_re attrs.

(** What stands between <svg and > in the new tag. *)
Definition new_tag_attrs (attrs : text) (width height : Z) : text :=
  strip_sizing attrs ++ responsive_attrs width height.

Definition new_tag (attrs : text) (width height : Z) : text :=
  str "<svg" ++ new_tag_attrs attrs width height ++ [gt].

Definition rewrite_svg (svg_string : text) (width height : Z) : text :=
  match search svg_tag_re svg_string with
  | Some (_, (group0, groups, _)) =>
      let attrs := nth 0 groups [] in
      replace_first group0 (new_tag attrs width height) svg_string
  | None => svg_string
  end.

(** ** Decoded images and alpha compositing (main.py, lines 60-65) *)

Module Py.

(** The outcome of a Python expression: a value, or an exception (a
    subclass of [Exception]) of which the handler only uses [str(e)]. *)
Inductive result (A : Type) : Type :=
| Ok (a : A)
| Raise (msg : text).

Arguments Ok {A} a.
Arguments Raise {A} msg.

Definition rbind {A B : Type} (r : result A) (k : A -> result B) : result B :=
  match r with
  | Ok a => k a
  | Raise msg => Raise msg
  end.

End Py.

Import Py.

Module Image.

(** A numpy array of uint8 as [cv2.imdecode] returns it: its [shape] and
    its pixels in row-major order, each pixel the vector along the last
    axis. *)
Record ndarray : Type := { shape : list Z; pixels : list (list Z) }.

(** [img.shape[i]]; a missing axis raises IndexError. *)
Definition shape_at (img : ndarray) (i : nat) : result Z :=
  match nth_error (shape img) i with
  | Some d => Ok d
  | None => Raise (str "tuple index out of range")
  end.

(** [img[:, :, 3]] at one pixel. *)
Definition alpha_of (px : list Z) : Z := nth 3 px 0.

(** [mask = alpha < 128; img[mask] = [255, 255, 255, 255]] *)
Definition whiten_transparent (img : ndarray) : ndarray :=
  {| shape := shape img;
     pixels := map (fun px => if alpha_of px <? 128 then [255; 255; 255; 255] else px)
                   (pixels img) |}.

(** [cv2.cvtColor(img, cv2.COLOR_BGRA2BGR)]: the fourth channel is dropped.
    OpenCV rejects an array that is not height x width x 4 with a
    [cv2.error], whose text is [cv_error]. *)
Definition cvtColor_BGRA2BGR (cv_error : text) (img : ndarray) : result ndarray :=
  match shape img with
  | [h; w; c] =>
      if c =? 4 then Ok {| shape := [h; w; 3]; pixels := map (firstn 3) (pixels img) |}
      else Raise cv_error
  | _ => Raise cv_error
  end.

(** The guard [img.shape[2] == 4] and the branch under it. *)
Definition composite_alpha (cv_error : text) (img : ndarray) : result ndarray :=
  rbind (shape_at img 2) (fun c =>
    if c =? 4 then cvtColor_BGRA2BGR cv_error (whiten_transparent img)
    else Ok img).

(** Whether the alpha branch runs on [img]. *)
Definition alpha_branch_taken (img : ndarray) : bool :=
  match shape_at img 2 with
  | Ok c => c =? 4
  | Raise _ => false
  end.

End Image.

Import Image.

(** ** The request handler (main.py, lines 32-133) *)

Inductive json : Type :=
| JStr (t : text)
| JInt (n : Z).

(** A Python dict literal: keys in the order they are written. *)
Definition response : Type := list (string * json).

Definition error_response (msg : text) : response := [("error"%string, JStr msg)].

Definition success_response (svg_string : text) (width height : Z) : response :=
  [("svgString"%string, JStr svg_string); ("width"%string, JInt width);
   ("height"%string, JInt height)].



(** [cv2.IMREAD_COLOR] *)
Definition IMREAD_COLOR : Z := 1.

(** The world outside the handler: the upload, OpenCV, the file system and
    the external vectorizer.  An operation on the world may raise and may
    change it; a library function may raise. *)

Definition M (world A : Type) : Type := world -> result A * world.

Definition ret {world A : Type} (a : A) : M world A := fun w => (Ok a, w).

Definition bind {world A B : Type} (c : M world A) (k : A -> M world B) : M world B :=
  fun w =>
    match c w with
    | (Ok a, w') => k a w'
    | (Raise msg, w') => (Raise msg, w')
    end.

Definition lift {world A : Type} (r : result A) : M world A := fun w => (r, w).

Record request (upload pyfloat : Type) : Type := {
  file : upload;
  turdsize : Z;
  alphamax : pyfloat;
  optcurve : bool;
  opttolerance : pyfloat;
  threshold : Z;
  manualThreshold : bool;
  algorithm : string
}.

Arguments file {upload pyfloat} r.
Arguments turdsize {upload pyfloat} r.
Arguments alphamax {upload pyfloat} r.
Arguments optcurve {upload pyfloat} r.
Arguments opttolerance {upload pyfloat} r.
Arguments threshold {upload pyfloat} r.
Arguments manualThreshold {upload pyfloat} r.
Arguments algorithm {upload pyfloat} r.

Record env (world upload pyfloat : Type) : Type := {
  (* await file.read() *)
  file_read : upload -> M world (list Byte.byte);
  (* cv2.imdecode(buf, flags): None when the bytes are not an image *)
  imdecode : list Byte.byte -> Z -> result (option ndarray);
  (* the text of the cv2.error of a rejected colour conversion *)
  cv_error : text;
  (* cv2.cvtColor(img, cv2.COLOR_BGR2GRAY) *)
  cvtColor_BGR2GRAY : ndarray -> result raster;
  (* the numeric kernels of the binarization *)
  local_mean : raster -> nat -> Z;
  medianBlur3 : raster -> raster;
  otsu_level : raster -> Z;
  (* cv2.imencode(.png, processed) *)
  imencode_png : raster -> result (bool * list Byte.byte);
  (* with open(path, wb) as f: f.write(buffer) *)
  write_file : string -> list Byte.byte -> M world unit;
  (* int(alphamax * 60) *)
  int_times_60 : pyfloat -> result Z;
  (* vtracer.convert_image_to_svg_py(input, output, colormode,
     filter_speckle, corner_threshold, path_precision) *)
  convert_image_to_svg_py : string -> string -> string -> Z -> Z -> Z -> M world unit;
  (* os.path.exists(path) *)
  path_exists : string -> world -> bool;
  (* with open(path, r) as f: f.read() *)
  read_file : string -> M world text;
  (* the two fixed paths beside the module *)
  temp_input : string;
  temp_output : string
}.

Arguments file_read {world upload pyfloat} e.
Arguments imdecode {world upload pyfloat} e.
Arguments cv_error {world upload pyfloat} e.
Arguments cvtColor_BGR2GRAY {world upload pyfloat} e.
Arguments local_mean {world upload pyfloat} e.
Arguments medianBlur3 {world upload pyfloat} e.
Arguments otsu_level {world upload pyfloat} e.
Arguments imencode_png {world upload pyfloat} e.
Arguments write_file {world upload pyfloat} e.
Arguments int_times_60 {world upload pyfloat} e.
Arguments convert_image_to_svg_py {world upload pyfloat} e.
Arguments path_exists {world upload pyfloat} e.
Arguments read_file {world upload pyfloat} e.
Arguments temp_input {world upload pyfloat} e.
Arguments temp_output {world upload pyfloat} e.

Section Handler.

Context {world upload pyfloat : Type}.
Variable e : env world upload pyfloat.

Local Notation "x <- c ;; k" := (bind c (fun x => k))
  (at level 61, c at next level, right associativity).
Local Notation "c ;;; k" := (bind c (fun _ => k))
  (at level 61, right associativity).

(** Reading and decoding the upload (lines 53-55). *)
Definition decode_upload (req : request upload pyfloat) : M world (option ndarray) :=
  contents <- file_read e (file req) ;;
  lift (imdecode e contents IMREAD_COLOR).

(** The binarization and polarity steps on the grayscale image
    (lines 70-86). *)
Definition preprocess (req : request upload pyfloat) (gray : raster) : raster :=
  let processed :=
    binarize (local_mean e) (medianBlur3 e) (otsu_level e) gray
             (algorithm req) (manualThreshold req) (threshold req) in
  normalize_polarity processed.

(** The body of the [try] block. *)
Definition vectorize_body (req : request upload pyfloat) : M world response :=
  decoded <- decode_upload req ;;
  match decoded with
  | None => ret (error_response (str "Invalid image data"))
  | Some img =>
      img <- lift (composite_alpha (cv_error e) img) ;;
      gray <- lift (cvtColor_BGR2GRAY e img) ;;
      let processed := preprocess req gray in
      encoded <- lift (imencode_png e processed) ;;
      if negb (fst encoded) then ret (error_response (str "Failed to encode image"))
      else
        write_file e (temp_input e) (snd encoded) ;;;
        corner <- lift (int_times_60 e (alphamax req)) ;;
        convert_image_to_svg_py e (temp_input e) (temp_output e) "binary"
                                (turdsize req) corner 3 ;;;
        fun w =>
          if negb (path_exists e (temp_output e) w) then
            ret (error_response (str "vtracer failed to generate SVG output")) w
          else
            (svg_string <- read_file e (temp_output e) ;;
             width <- lift (shape_at img 1) ;;
             height <- lift (shape_at img 0) ;;
             ret (success_response (rewrite_svg svg_string width height)
                                   width height)) w
  end.

(** The handler: [except Exception as e: return {"error": str(e)}]. *)
Definition vectorize (req : request upload pyfloat) (w : world) : response * world :=
  match vectorize_body req w with
  | (Ok r, w') => (r, w')
  | (Raise msg, w') => (error_response msg, w')
  end.

End Handler.

(** ** Reading the root tag as SVG does

    The claims about the rewritten tag speak of its attributes.  An attribute
    list is read with the grammar of XML: attributes are separated by white
    space (space, tab, line feed, carriage return), an attribute is a name, an
    equals sign with optional white space around it, and a value between
    double or between single quotes. *)

Module SvgTag.

Definition equals : N := 61.

Definition xml_space (c : N) : bool :=
  ((c =? 32) || (c =? 9) || (c =? 10) || (c =? 13))%N.

(** Characters of an attribute name: no white space of any kind and none of
    the delimiters of a tag. *)
Definition name_char (c : N) : bool :=
  negb (is_space c) && negb (c =? equals)%N && negb (c =? dquote)%N &&
  negb (c =? squote)%N && negb (c =? gt)%N && negb (c =? 47)%N &&
  negb (c =? 60)%N.

Inductive pstate : Type :=
| Gap (spaced : bool)          (* between attributes *)
| InName (n : text)            (* inside a name *)
| PreEq (n : text)             (* after the name, before the equals sign *)
| PostEq (n : text)            (* after the equals sign *)
| InValue (n : text) (q : N).  (* inside a value opened by the quote q *)

(** The names of the attributes of an attribute list, in order; [None] when
    the text is not an attribute list. *)
Fixpoint parse_from (st : pstate) (s : text) : option (list text) :=
  match s with
  | [] => match st with Gap _ => Some [] | _ => None end
  | c :: s' =>
      match st with
      | Gap spaced =>
          if xml_space c then parse_from (Gap true) s'
          else if name_char c && spaced then parse_from (InName [c]) s'
          else None
      | InName n =>
          if name_char c then parse_from (InName (n ++ [c])) s'
          else if (c =? equals)%N then parse_from (PostEq n) s'
          else if xml_space c then parse_from (PreEq n) s'
          else None
      | PreEq n =>
          if xml_space c then parse_from (PreEq n) s'
          else if (c =? equals)%N then parse_from (PostEq n) s'
          else None
      | PostEq n =>
          if xml_space c then parse_from (PostEq n) s'
          else if ((c =? dquote) || (c =? squote))%N then parse_from (InValue n c) s'
          else None
      | InValue n q =>
          if (c =? q)%N then option_map (cons n) (parse_from (Gap false) s')
          else parse_from (InValue n q) s'
      end
  end.

Definition attr_names (attrs : text) : option (list text) :=
  parse_from (Gap false) attrs.

Definition text_eq_dec : forall a b : text, {a = b} + {a <> b} :=
  list_eq_dec N.eq_dec.

(** How many attributes of the list are called [name]. *)
Definition attr_count (name attrs : text) : option nat :=
  option_map (fun names => count_occ text_eq_dec names name) (attr_names attrs).

(** An attribute written the way the handler's pattern expects it: white
    space, the name, an equals sign, the value between double quotes. *)
Record attr : Type := { a_space : text; a_name : text; a_value : text }.

Definition wf_attr (a : attr) : Prop :=
  a_space a <> [] /\ Forall (fun c => xml_space c = true) (a_space a) /\
  a_name a <> [] /\ Forall (fun c => name_char c = true) (a_name a) /\
  ~ In dquote (a_value a).

Definition render (a : attr) : text :=
  a_space a ++ a_name a ++ [equals; dquote] ++ a_value a ++ [dquote].

Definition render_all (l : list attr) : text := flat_map render l.

End SvgTag.

Import SvgTag.


(** The attributes the handler appends, one by one; [sp] is white space that
    precedes them. *)
Definition responsive_list (sp : text) (width height : Z) : list attr :=
  [ {| a_space := sp ++ str " "; a_name := str "width"; a_value := str "100%" |};
    {| a_space := str " "; a_name := str "height"; a_value := str "100%" |};
    {| a_space := str " "; a_name := str "viewBox";
       a_value := str "0 0 " ++ format_int width ++ str " " ++ format_int height |};
    {| a_space := str " "; a_name := str "preserveAspectRatio";
       a_value := str "xMidYMid meet" |};
    {| a_space := str " "; a_name := str "style";
       a_value := str "display:block;margin:auto;" |} ].

(** The root attributes of [demo_svg]. *)
Definition demo_attrs : list attr :=
  [ {| a_space := str " "; a_name := str "version"; a_value := str "1.1" |};
    {| a_space := str " "; a_name := str "width"; a_value := str "2" |};
    {| a_space := str " "; a_name := str "height"; a_value := str "1" |} ].

(** ** Shapes of a response *)





(** ** A small world for examples

    Uploads are their bytes, the world records whether the output file
    exists, an empty upload makes the decoder raise, a one-byte upload is
    not an image, and anything longer decodes to a 1 x 2 image. *)

Definition demo_image : ndarray :=
  {| shape := [1; 2; 3]; pixels := [[0; 0; 0]; [255; 255; 255]] |}.

Definition demo_svg : text :=
  str "<svg version=" ++ [dquote] ++ str "1.1" ++ [dquote] ++
  str " width=" ++ [dquote] ++ str "2" ++ [dquote] ++
  str " height=" ++ [dquote] ++ str "1" ++ [dquote] ++ str "><path/></svg>".

Definition demo_env : env bool (list Byte.byte) Z :=
  {| file_read := fun u w => (Ok u, w);
     imdecode := fun buf _ =>
       match buf with
       | [] => Raise (str "buffer is empty")
       | [_] => Ok None
       | _ => Ok (Some demo_image)
       end;
     cv_error := str "cv2.error";
     cvtColor_BGR2GRAY := fun img => Ok (map (fun px => nth 0 px 0) (pixels img));
     local_mean := fun _ _ => 128;
     medianBlur3 := fun g => g;
     otsu_level := fun _ => 127;
     imencode_png := fun _ => Ok (true, []);
     write_file := fun _ _ w => (Ok tt, w);
     int_times_60 := fun x => Ok (x * 60);
     convert_image_to_svg_py := fun _ _ _ _ _ _ _ => (Ok tt, true);
     path_exists := fun _ w => w;
     read_file := fun _ w => (Ok demo_svg, w);
     temp_input := "temp_input.png";
     temp_output := "temp_output.svg" |}.

Definition demo_request (contents : list Byte.byte) (alg : string) : request (list Byte.byte) Z :=
  {| file := contents; turdsize := 2; alphamax := 1; optcurve := true;
     opttolerance := 0; threshold := 128; manualThreshold := false;
     algorithm := alg |}.

(** ** Well-formed images *)

(** An array of height x width x [c] 8-bit channels. *)
Definition well_shaped (img : ndarray) (c : nat) : Prop :=
  exists h w,
    shape img = [h; w; Z.of_nat c] /\
    Z.of_nat (List.length (pixels img)) = h * w /\
    Forall (fun px => List.length px = c /\ Forall is_u8 px) (pixels img).

(** ** Vocabulary for the rewriter *)

(** [a] is obtained from [b] by deleting characters. *)
Inductive subseq : text -> text -> Prop :=
| subseq_nil : subseq [] []
| subseq_keep (c : N) (a b : text) : subseq a b -> subseq (c :: a) (c :: b)
| subseq_drop (c : N) (a b : text) : subseq a b -> subseq a (c :: b).

(** Whether a name is one of the four the handler strips. *)
Definition is_sizing (n : text) : bool :=
  existsb (fun t => if text_eq_dec n t then true else false) sizing_names.

(** The attributes of a list under other names, in order. *)
Definition keep_other (l : list attr) : list attr :=
  filter (fun a => negb (is_sizing (a_name a))) l.

Definition ends_with_equals (v : text) : Prop := exists v0, v = v0 ++ [equals].

(** The example world with the decoder, the encoder and the vectorizer
    replaced: [leaves_output] tells whether the output file exists after the
    vectorizer has run. *)
Definition demo_env_with (decoded : result (option ndarray))
           (encoded : result (bool * list Byte.byte)) (leaves_output : bool) :
  env bool (list Byte.byte) Z :=
  {| file_read := file_read demo_env;
     imdecode := fun _ _ => decoded;
     cv_error := cv_error demo_env;
     cvtColor_BGR2GRAY := cvtColor_BGR2GRAY demo_env;
     local_mean := local_mean demo_env;
     medianBlur3 := medianBlur3 demo_env;
     otsu_level := otsu_level demo_env;
     imencode_png := fun _ => encoded;
     write_file := write_file demo_env;
     int_times_60 := int_times_60 demo_env;
     convert_image_to_svg_py := fun _ _ _ _ _ _ _ => (Ok tt, leaves_output);
     path_exists := path_exists demo_env;
     read_file := read_file demo_env;
     temp_input := temp_input demo_env;
     temp_output := temp_output demo_env |}.

(** ** The stand-alone script (test_vtracer.py)

    The script reads SampleImage.jpeg, thresholds it at 128, writes the mask,
    runs the vectorizer with fixed settings and reports on standard output.
    Its state is the world together with the lines printed so far. *)

Record script_env (world : Type) : Type := {
  (* cv2.imread(path): None when the file cannot be read *)
  sc_imread : string -> M world (option ndarray);
  (* cv2.cvtColor(img, cv2.COLOR_BGR2GRAY) *)
  sc_cvtColor_BGR2GRAY : ndarray -> result raster;
  (* cv2.imwrite(path, img) *)
  sc_imwrite : string -> raster -> M world bool;
  (* vtracer.convert_image_to_svg_py(input, output, colormode,
     filter_speckle, corner_threshold, path_precision) *)
  sc_convert : string -> string -> string -> Z -> Z -> Z -> M world unit;
  (* os.path.exists(path) *)
  sc_path_exists : string -> world -> bool
}.

Arguments sc_imread {world} s.
Arguments sc_cvtColor_BGR2GRAY {world} s.
Arguments sc_imwrite {world} s.
Arguments sc_convert {world} s.
Arguments sc_path_exists {world} s.

Definition console (world : Type) : Type := (world * list text)%type.

(** [print(line)] *)
Definition print {world : Type} (line : text) : M (console world) unit :=
  fun s => (Ok tt, (fst s, snd s ++ [line])).

(** An operation on the world, run beside the console. *)
Definition on_world {world A : Type} (c : M world A) : M (console world) A :=
  fun s => (fst (c (fst s)), (snd (c (fst s)), snd s)).

(** [str(b)] for a boolean. *)
Definition py_bool (b : bool) : text := if b then str "True" else str "False".

Section Script.

Context {world : Type}.
Variable e : script_env world.

Local Notation "x <- c ;; k" := (bind c (fun x => k))
  (at level 61, c at next level, right associativity).
Local Notation "c ;;; k" := (bind c (fun _ => k))
  (at level 61, right associativity).

(** The body of the [try] block; [Some status] when [exit(status)] ended the
    script. *)
Definition script_body : M (console world) (option Z) :=
  img <- on_world (sc_imread e "SampleImage.jpeg") ;;
  match img with
  | None =>
      print (str "SampleImage.jpeg not found") ;;;
      ret (Some 1)
  | Some img =>
      gray <- lift (sc_cvtColor_BGR2GRAY e img) ;;
      let processed := threshold_binary gray 128 255 in
      on_world (sc_imwrite e "test_input.png" processed) ;;;
      print (str "test_input.png written") ;;;
      on_world (sc_convert e "test_input.png" "test_output.svg" "binary" 2 60 3) ;;;
      print (str "test_output.svg written") ;;;
      (fun s =>
         print (str "File exists: " ++
                py_bool (sc_path_exists e "test_output.svg" (fst s))) s) ;;;
      ret None
  end.

(** The script: exit status, lines printed, final world.  [exit] raises
    SystemExit, which [except Exception] lets through; any other exception is
    reported and the script ends normally. *)
Definition test_vtracer (w : world) : Z * list text * world :=
  match script_body (w, []) with
  | (Ok (Some status), s) => (status, snd s, fst s)
  | (Ok None, s) => (0, snd s, fst s)
  | (Raise msg, s) => (0, snd s ++ [str "Test failed: " ++ msg], fst s)
  end.

End Script.

(** An example script world: the world tells whether the sample exists. *)
Definition demo_script_env : script_env bool :=
  {| sc_imread := fun _ (w : bool) => (Ok (if w then Some demo_image else None), w);
     sc_cvtColor_BGR2GRAY :=
       fun img : ndarray => Ok (map (fun px => nth 0 px 0) (pixels img));
     sc_imwrite := fun _ _ (w : bool) => (Ok true, w);
     sc_convert := fun _ _ _ _ _ _ (w : bool) => (Raise (str "conversion failed"), w);
     sc_path_exists := fun _ _ => false |}.

(** ** Attributes in the general syntax of XML

    An attribute as a root tag may write it: white space, the name, optional
    white space on either side of the equals sign, and the value between
    double or between single quotes.  The value holds neither its own quote
    nor a double quote. *)








(** ** Reading names and values

    The same grammar as [parse_from], keeping the value of each attribute
    beside its name. *)







(** ** Variations of an environment *)

(** The environment whose decoder returns [img] whatever the bytes. *)
Definition with_decoded {world upload pyfloat : Type}
           (e : env world upload pyfloat) (img : ndarray) : env world upload pyfloat :=
  {| file_read := file_read e;
     imdecode := fun _ _ => Ok (Some img);
     cv_error := cv_error e;
     cvtColor_BGR2GRAY := cvtColor_BGR2GRAY e;
     local_mean := local_mean e;
     medianBlur3 := medianBlur3 e;
     otsu_level := otsu_level e;
     imencode_png := imencode_png e;
     write_file := write_file e;
     int_times_60 := int_times_60 e;
     convert_image_to_svg_py := convert_image_to_svg_py e;
     path_exists := path_exists e;
     read_file := read_file e;
     temp_input := temp_input e;
     temp_output := temp_output e |}.


(** A four-channel image: one transparent and one opaque pixel. *)
Definition demo_rgba : ndarray :=
  {| shape := [1; 2; 4]; pixels := [[10; 20; 30; 127]; [10; 20; 30; 128]] |}.






(** * Properties *)

(** ** Polarity normalization *)

Section PolarityFacts.


Lemma np_sum_nonneg (m : list bool) : 0 <= np_sum m.
Proof. induction m as [|[] m IH]; cbn [np_sum]; lia. Qed.

(** The complement of an 8-bit value is 255 minus that value. *)
Lemma not_u8_spec (v : Z) : is_u8 v -> not_u8 v = 255 - v.
Proof.
  unfold is_u8, not_u8. intros Hv.
  change 255 with (Z.ones 8) at 1. rewrite Z.land_ones by lia.
  unfold Z.lnot. change (2 ^ 8) with 256.
  symmetry. apply (Z.mod_unique_pos _ _ (-1)); lia.
Qed.

Lemma not_u8_black : not_u8 0 = 255.
Proof. reflexivity. Qed.

Lemma not_u8_white : not_u8 255 = 0.
Proof. reflexivity. Qed.

(** On a binary raster the complement is 255 - v, swaps the two classes and
    keeps the raster binary. *)
Lemma bitwise_not_binary (p : raster) :
  binary p ->
  bitwise_not p = map (fun v => 255 - v) p /\
  binary (bitwise_not p) /\
  black_pixels (bitwise_not p) = white_pixels p /\
  white_pixels (bitwise_not p) = black_pixels p.
Proof.
  unfold black_pixels, white_pixels, bitwise_not, eq_mask.
  induction 1 as [|v p Hv Hp (IHeq & IHbin & IHb & IHw)].
  - repeat split. constructor.
  - cbn [map np_sum]. rewrite IHb, IHw, IHeq.
    split; [|split; [|split]].
    + f_equal. destruct Hv as [-> | ->]; reflexivity.
    + constructor; [|rewrite <- IHeq; exact IHbin].
      destruct Hv as [-> | ->]; cbn; auto.
    + destruct Hv as [-> | ->]; reflexivity.
    + destruct Hv as [-> | ->]; reflexivity.
Qed.


Lemma binary_counts (p : raster) :
  binary p -> black_pixels p + white_pixels p = Z.of_nat (List.length p).
Proof.
  unfold black_pixels, white_pixels.
  induction 1 as [|v p Hv Hp IH]; [reflexivity|].
  cbn [eq_mask map np_sum List.length] in *.
  fold (eq_mask p 0) in *. fold (eq_mask p 255) in *.
  rewrite Nat2Z.inj_succ.
  destruct Hv as [-> | ->]; cbn -[Z.of_nat Z.add Z.succ]; lia.
Qed.

End PolarityFacts.



(** C2.  On a binary raster, the output of one normalization never passes the
    count-and-compare check again: the second application is the identity on
    the output of the first. *)
Theorem polarity_idempotent (p : raster) :
  binary p ->
  needs_inversion (normalize_polarity p) = false /\
  normalize_polarity (normalize_polarity p) = normalize_polarity p.
Proof.
  intros Hbin.
  assert (Hcheck : needs_inversion (normalize_polarity p) = false).
  { unfold normalize_polarity.
    destruct (needs_inversion p) eqn:Hn.
    - destruct (bitwise_not_binary p Hbin) as (_ & _ & Hb & Hw).
      unfold needs_inversion in *. rewrite Hb, Hw.
      apply Z.ltb_lt in Hn. apply Z.ltb_ge.
      pose proof (np_sum_nonneg (eq_mask p 255)). fold (white_pixels p) in *. lia.
    - exact Hn. }
  split; [exact Hcheck|].
  unfold normalize_polarity at 1. rewrite Hcheck. reflexivity.
Qed.

Lemma polarity_idempotent_witness :
  binary [0; 0; 0; 0; 0; 0; 0; 0; 0; 255] /\
  needs_inversion (normalize_polarity [0; 0; 0; 0; 0; 0; 0; 0; 0; 255]) = false /\
  normalize_polarity (normalize_polarity [0; 0; 0; 0; 0; 0; 0; 0; 0; 255]) =
  normalize_polarity [0; 0; 0; 0; 0; 0; 0; 0; 0; 255].
Proof.
  assert (Hb : binary [0; 0; 0; 0; 0; 0; 0; 0; 0; 255]) by (repeat constructor; auto).
  split; [exact Hb|]. exact (polarity_idempotent _ Hb).
Defined.

(** ** Binarization *)

Section BinarizationFacts.

Variable local_mean : raster -> nat -> Z.
Variable medianBlur3 : raster -> raster.
Variable otsu_level : raster -> Z.

Lemma threshold_binary_255 (src : raster) (t : Z) :
  binary (threshold_binary src t 255).
Proof.
  unfold binary, threshold_binary. apply Forall_map, Forall_forall.
  intros v _. destruct (t <? v); auto.
Qed.

Lemma adaptive_binary (gray : raster) :
  binary (apply_adaptive_threshold local_mean gray).
Proof.
  unfold binary, apply_adaptive_threshold. apply Forall_map, Forall_forall.
  intros [i v] _. cbn [fst snd]. destruct (_ <? v); auto.
Qed.

Lemma binarize_binary gray algorithm manual threshold :
  binary (binarize local_mean medianBlur3 otsu_level gray algorithm manual threshold).
Proof.
  unfold binarize, otsu_threshold.
  destruct (String.eqb algorithm "adaptive"); [apply adaptive_binary|].
  destruct manual; apply threshold_binary_255.
Qed.

Lemma normalize_polarity_binary (p : raster) :
  binary p -> binary (normalize_polarity p).
Proof.
  intros Hp. unfold normalize_polarity.
  destruct (needs_inversion p); [|exact Hp].
  apply (bitwise_not_binary p Hp).
Qed.

End BinarizationFacts.

(** C6.  With algorithm "adaptive" the binary raster does not depend on the
    manualThreshold and threshold fields: two requests that agree on the
    grayscale image give the same raster whatever those fields are. *)
Theorem adaptive_ignores_manual_threshold
        (local_mean : raster -> nat -> Z) (medianBlur3 : raster -> raster)
        (otsu_level : raster -> Z) (gray : raster)
        (manual1 manual2 : bool) (threshold1 threshold2 : Z) :
  binarize local_mean medianBlur3 otsu_level gray "adaptive" manual1 threshold1 =
  binarize local_mean medianBlur3 otsu_level gray "adaptive" manual2 threshold2 /\
  binarize local_mean medianBlur3 otsu_level gray "adaptive" manual1 threshold1 =
  apply_adaptive_threshold local_mean gray.
Proof. split; reflexivity. Qed.

(** C7.  An algorithm string other than "otsu", "median-otsu" and "adaptive"
    is not rejected: binarization does exactly what it does for "otsu", a
    global threshold at the supplied cutoff when manualThreshold is set and
    Otsu's threshold otherwise, on the unfiltered grayscale image. *)
Theorem unknown_algorithm_is_otsu
        (local_mean : raster -> nat -> Z) (medianBlur3 : raster -> raster)
        (otsu_level : raster -> Z) (gray : raster) (algorithm : string)
        (manual : bool) (threshold : Z) :
  algorithm <> "otsu"%string ->
  algorithm <> "median-otsu"%string ->
  algorithm <> "adaptive"%string ->
  binarize local_mean medianBlur3 otsu_level gray algorithm manual threshold =
  binarize local_mean medianBlur3 otsu_level gray "otsu" manual threshold /\
  binarize local_mean medianBlur3 otsu_level gray algorithm manual threshold =
  (if manual then threshold_binary gray threshold 255
   else threshold_binary gray (otsu_level gray) 255).
Proof.
  intros _ Hmedian Hadaptive.
  apply String.eqb_neq in Hmedian, Hadaptive.
  unfold binarize, otsu_threshold. rewrite Hmedian, Hadaptive.
  split; reflexivity.
Qed.

Lemma unknown_algorithm_is_otsu_witness :
  binarize (fun _ _ => 0) (fun g => g) (fun _ => 100) [10; 200] "sobel" true 50 =
  binarize (fun _ _ => 0) (fun g => g) (fun _ => 100) [10; 200] "otsu" true 50 /\
  binarize (fun _ _ => 0) (fun g => g) (fun _ => 100) [10; 200] "sobel" true 50 =
  [0; 255].
Proof.
  apply (unknown_algorithm_is_otsu (fun _ _ => 0) (fun g => g) (fun _ => 100)
                                   [10; 200] "sobel" true 50);
    discriminate.
Defined.

(** C9.  Whatever the algorithm, the manual flag and the cutoff, every pixel
    of the binarized raster is 0 or 255; the polarity step keeps that; so the
    black count and the white count of the polarity check add up to the
    number of pixels, before and after the inversion. *)
Theorem binary_mask_invariant
        (local_mean : raster -> nat -> Z) (medianBlur3 : raster -> raster)
        (otsu_level : raster -> Z) (gray : raster) (algorithm : string)
        (manual : bool) (threshold : Z) :
  binary (binarize local_mean medianBlur3 otsu_level gray algorithm manual threshold) /\
  binary (normalize_polarity
            (binarize local_mean medianBlur3 otsu_level gray algorithm manual threshold)) /\
  black_pixels (binarize local_mean medianBlur3 otsu_level gray algorithm manual threshold) +
  white_pixels (binarize local_mean medianBlur3 otsu_level gray algorithm manual threshold) =
  Z.of_nat (List.length
              (binarize local_mean medianBlur3 otsu_level gray algorithm manual threshold)) /\
  black_pixels (normalize_polarity
     (binarize local_mean medianBlur3 otsu_level gray algorithm manual threshold)) +
  white_pixels (normalize_polarity
     (binarize local_mean medianBlur3 otsu_level gray algorithm manual threshold)) =
  Z.of_nat (List.length
              (binarize local_mean medianBlur3 otsu_level gray algorithm manual threshold)).
Proof.
  pose proof (binarize_binary local_mean medianBlur3 otsu_level
                              gray algorithm manual threshold) as Hb.
  set (p := binarize _ _ _ _ _ _ _) in *.
  pose proof (normalize_polarity_binary p Hb) as Hn.
  repeat split; auto using binary_counts.
  rewrite (binary_counts _ Hn). f_equal.
  unfold normalize_polarity. destruct (needs_inversion p); [|reflexivity].
  apply length_map.
Qed.

(** ** The matcher *)

Section TextFacts.

Lemma starts_with_app (p r : text) : starts_with p (p ++ r) = Some r.
Proof.
  induction p as [|a p IH]; [reflexivity|].
  cbn [app starts_with]. rewrite N.eqb_refl. exact IH.
Qed.

Lemma starts_with_inv (p s r : text) : starts_with p s = Some r -> s = p ++ r.
Proof.
  revert s. induction p as [|a p IH]; intros s H.
  - cbn in H. injection H as ->. reflexivity.
  - destruct s as [|b s]; [discriminate|]. cbn [starts_with] in H.
    destruct (N.eqb_spec a b) as [->|]; [|discriminate].
    cbn [app]. f_equal. auto.
Qed.

(** Two ways of cutting one text after a run of a class, each run followed
    by a character outside the class, agree. *)
Lemma run_unique (cls : N -> bool) (a a' b b' : text) (x x' : N) :
  Forall (fun c => cls c = true) a -> Forall (fun c => cls c = true) a' ->
  cls x = false -> cls x' = false ->
  a ++ x :: b = a' ++ x' :: b' ->
  a = a' /\ x = x' /\ b = b'.
Proof.
  intros Ha. revert a'.
  induction Ha as [|c a Hc Ha IH]; intros a' Ha' Hx Hx' Heq.
  - destruct a' as [|c' a']; cbn in Heq.
    + injection Heq as -> ->. auto.
    + injection Heq as -> _. apply Forall_inv in Ha'. congruence.
  - destruct a' as [|c' a']; cbn in Heq.
    + injection Heq as -> _. congruence.
    + injection Heq as -> Heq. apply Forall_inv_tail in Ha'.
      destruct (IH a' Ha' Hx Hx' Heq) as (-> & -> & ->). auto.
Qed.

Lemma is_not_true (c x : N) : is_not c x = true <-> x <> c.
Proof.
  unfold is_not. destruct (N.eqb_spec x c); cbn; split; congruence.
Qed.

Lemma is_not_self (c : N) : is_not c c = false.
Proof. unfold is_not. rewrite N.eqb_refl. reflexivity. Qed.

Lemma Forall_is_not (c : N) (a : text) :
  Forall (fun x => is_not c x = true) a <-> ~ In c a.
Proof.
  rewrite Forall_forall. split.
  - intros H Hin. apply H in Hin. rewrite is_not_self in Hin. discriminate.
  - intros H x Hin. apply is_not_true. intros ->. auto.
Qed.

(** The first occurrence of a character determines the cut. *)
Lemma first_unique (c : N) (a a' b b' : text) :
  ~ In c a -> ~ In c a' -> a ++ c :: b = a' ++ c :: b' -> a = a' /\ b = b'.
Proof.
  intros Ha Ha' Heq. apply Forall_is_not in Ha, Ha'.
  destruct (run_unique (is_not c) a a' b b' c c Ha Ha'
                       (is_not_self c) (is_not_self c) Heq) as (? & _ & ?).
  auto.
Qed.

End TextFacts.

Section MatcherFacts.

Lemma star_sound (cls : N -> bool) (k : cont) (s run : text) (r : mres) :
  star cls k s = Some (run, r) ->
  Forall (fun c => cls c = true) run /\
  exists s2, s = run ++ s2 /\ k s2 = Some r.
Proof.
  revert run. induction s as [|c s IH]; intros run H.
  - cbn in H. destruct (k []) eqn:Hk; [|discriminate].
    injection H as <- <-. split; [constructor|]. exists []. auto.
  - cbn [star] in H. destruct (cls c) eqn:Hc.
    + destruct (star cls k s) as [[run' r']|] eqn:Hs.
      * injection H as <- <-. destruct (IH run' eq_refl) as (Hall & s2 & -> & Hk).
        split; [constructor; assumption|]. exists s2. auto.
      * destruct (k (c :: s)) eqn:Hk; [|discriminate].
        injection H as <- <-. split; [constructor|]. exists (c :: s). auto.
    + destruct (k (c :: s)) eqn:Hk; [|discriminate].
      injection H as <- <-. split; [constructor|]. exists (c :: s). auto.
Qed.

(** Greedy: when the whole run of the class can be taken, it is. *)
Lemma star_longest (cls : N -> bool) (k : cont) (run s2 : text) (r : mres) :
  Forall (fun c => cls c = true) run ->
  k s2 = Some r ->
  star cls k (run ++ s2) = Some (run, r) \/
  exists c s3, s2 = c :: s3 /\ cls c = true.
Proof.
  intros Hall Hk.
  destruct s2 as [|c s3].
  - left. induction Hall as [|x run Hx _ IH].
    + cbn. rewrite Hk. reflexivity.
    + cbn [app star]. rewrite Hx, IH. reflexivity.
  - destruct (cls c) eqn:Hc; [right; eauto|].
    left. induction Hall as [|x run Hx _ IH].
    + cbn. rewrite Hc, Hk. reflexivity.
    + cbn [app star]. rewrite Hx, IH. reflexivity.
Qed.

Lemma star_complete (cls : N -> bool) (k : cont) (run s3 : text) (c : N) (r : mres) :
  Forall (fun x => cls x = true) run -> cls c = false ->
  k (c :: s3) = Some r ->
  star cls k (run ++ c :: s3) = Some (run, r).
Proof.
  intros Hall Hc Hk.
  destruct (star_longest cls k run (c :: s3) r Hall Hk) as [H|(c' & s' & Heq & Hc')];
    [exact H|].
  injection Heq as <- <-. congruence.
Qed.

Lemma alt_sound (ts : list text) (k : cont) (s t : text) (r : mres) :
  alt ts k s = Some (t, r) ->
  In t ts /\ exists s2, s = t ++ s2 /\ k s2 = Some r.
Proof.
  induction ts as [|t' ts IH]; intros H; [discriminate|].
  cbn [alt] in H.
  destruct (starts_with t' s) as [s2|] eqn:Hst.
  - destruct (k s2) eqn:Hk.
    + injection H as <- <-. split; [left; reflexivity|].
      exists s2. split; [apply starts_with_inv; assumption|assumption].
    + destruct (IH H) as (Hin & Hex). split; [right; assumption|assumption].
  - destruct (IH H) as (Hin & Hex). split; [right; assumption|assumption].
Qed.

(** A match splits the text into what was matched and what follows. *)
Lemma rmatch_split (p : pattern) (s m rest : text) (g : list text) :
  rmatch p s = Some (m, g, rest) -> s = m ++ rest.
Proof.
  revert s m g rest. induction p as [|a p IH]; intros s m g rest H.
  - cbn in H. injection H as <- <- <-. reflexivity.
  - cbn [rmatch] in H. destruct a as [t|cls|cls|cls|ts].
    + destruct (starts_with t s) as [r|] eqn:Hst; [|discriminate].
      apply starts_with_inv in Hst. subst s.
      destruct (rmatch p r) as [[[m' g'] rest']|] eqn:Hk; [|discriminate].
      cbn in H. injection H as <- <- <-.
      rewrite (IH _ _ _ _ Hk). rewrite <- !app_assoc. reflexivity.
    + destruct s as [|c s]; [discriminate|].
      destruct (cls c); [|discriminate].
      destruct (star cls (rmatch p) s) as [[run [[m' g'] rest']]|] eqn:Hs;
        [|discriminate].
      cbn in H. injection H as <- <- <-.
      destruct (star_sound _ _ _ _ _ Hs) as (_ & s2 & -> & Hk).
      rewrite (IH _ _ _ _ Hk). cbn. rewrite <- !app_assoc. reflexivity.
    + destruct (star cls (rmatch p) s) as [[run [[m' g'] rest']]|] eqn:Hs;
        [|discriminate].
      cbn in H. injection H as <- <- <-.
      destruct (star_sound _ _ _ _ _ Hs) as (_ & s2 & -> & Hk).
      rewrite (IH _ _ _ _ Hk). cbn. rewrite <- !app_assoc. reflexivity.
    + destruct (star cls (rmatch p) s) as [[run [[m' g'] rest']]|] eqn:Hs;
        [|discriminate].
      cbn in H. injection H as <- <- <-.
      destruct (star_sound _ _ _ _ _ Hs) as (_ & s2 & -> & Hk).
      rewrite (IH _ _ _ _ Hk). cbn. rewrite <- !app_assoc. reflexivity.
    + destruct (alt ts (rmatch p) s) as [[run [[m' g'] rest']]|] eqn:Hs;
        [|discriminate].
      cbn in H. injection H as <- <- <-.
      destruct (alt_sound _ _ _ _ _ Hs) as (_ & s2 & -> & Hk).
      rewrite (IH _ _ _ _ Hk). cbn. rewrite <- !app_assoc. reflexivity.
Qed.

Lemma search_split (p : pattern) (s before m rest : text) (g : list text) :
  search p s = Some (before, (m, g, rest)) ->
  s = before ++ m ++ rest /\ rmatch p (m ++ rest) = Some (m, g, rest).
Proof.
  revert before. induction s as [|c s IH]; intros before H.
  - cbn [search] in H. destruct (rmatch p []) as [r|] eqn:Hm; [|discriminate].
    injection H as <- ->. pose proof (rmatch_split _ _ _ _ _ Hm) as Hs.
    cbn. rewrite <- Hs. auto.
  - cbn [search] in H. destruct (rmatch p (c :: s)) as [r|] eqn:Hm.
    + injection H as <- ->. pose proof (rmatch_split _ _ _ _ _ Hm) as Hs.
      cbn. rewrite <- Hs. auto.
    + destruct (search p s) as [[before' r']|] eqn:Hsr; [|discriminate].
      injection H as <- ->. destruct (IH _ eq_refl) as (-> & Hr). auto.
Qed.

End MatcherFacts.

Section AtomFacts.

Variable p : pattern.

Lemma rmatch_nil (s : text) : rmatch [] s = Some ([], [], s).
Proof. reflexivity. Qed.

Lemma rmatch_Lit_inv (t s m rest : text) (g : list text) :
  rmatch (Lit t :: p) s = Some (m, g, rest) ->
  exists s2 m', s = t ++ s2 /\ m = t ++ m' /\ rmatch p s2 = Some (m', g, rest).
Proof.
  cbn [rmatch]. intros H.
  destruct (starts_with t s) as [r|] eqn:Hst; [|discriminate].
  apply starts_with_inv in Hst.
  destruct (rmatch p r) as [[[m' g'] rest']|] eqn:Hk; [|discriminate].
  cbn in H. injection H as <- <- <-. eauto.
Qed.

Lemma rmatch_Lit_intro (t s2 m' rest : text) (g : list text) :
  rmatch p s2 = Some (m', g, rest) ->
  rmatch (Lit t :: p) (t ++ s2) = Some (t ++ m', g, rest).
Proof.
  intros H. cbn [rmatch]. rewrite starts_with_app, H. reflexivity.
Qed.

Lemma rmatch_Plus_inv (cls : N -> bool) (s m rest : text) (g : list text) :
  rmatch (Plus cls :: p) s = Some (m, g, rest) ->
  exists run s2 m',
    run <> [] /\ Forall (fun c => cls c = true) run /\
    s = run ++ s2 /\ m = run ++ m' /\ rmatch p s2 = Some (m', g, rest).
Proof.
  cbn [rmatch]. intros H.
  destruct s as [|c s]; [discriminate|].
  destruct (cls c) eqn:Hc; [|discriminate].
  destruct (star cls (rmatch p) s) as [[run [[m' g'] rest']]|] eqn:Hs;
    [|discriminate].
  cbn in H. injection H as <- <- <-.
  destruct (star_sound _ _ _ _ _ Hs) as (Hall & s2 & -> & Hk).
  exists (c :: run), s2, m'. repeat split; auto. discriminate.
Qed.

Lemma rmatch_Plus_intro (cls : N -> bool) (run s3 m' rest : text) (c : N)
      (g : list text) :
  run <> [] -> Forall (fun x => cls x = true) run -> cls c = false ->
  rmatch p (c :: s3) = Some (m', g, rest) ->
  rmatch (Plus cls :: p) (run ++ c :: s3) = Some (run ++ m', g, rest).
Proof.
  intros Hne Hall Hc Hk. destruct run as [|x run]; [congruence|].
  cbn [rmatch app]. rewrite (Forall_inv Hall).
  rewrite (star_complete cls (rmatch p) run s3 c _ (Forall_inv_tail Hall) Hc Hk).
  reflexivity.
Qed.

Lemma rmatch_Star_inv (cls : N -> bool) (s m rest : text) (g : list text) :
  rmatch (Star cls :: p) s = Some (m, g, rest) ->
  exists run s2 m',
    Forall (fun c => cls c = true) run /\
    s = run ++ s2 /\ m = run ++ m' /\ rmatch p s2 = Some (m', g, rest).
Proof.
  cbn [rmatch]. intros H.
  destruct (star cls (rmatch p) s) as [[run [[m' g'] rest']]|] eqn:Hs;
    [|discriminate].
  cbn in H. injection H as <- <- <-.
  destruct (star_sound _ _ _ _ _ Hs) as (Hall & s2 & -> & Hk).
  exists run, s2, m'. auto.
Qed.

Lemma rmatch_Star_intro (cls : N -> bool) (run s3 m' rest : text) (c : N)
      (g : list text) :
  Forall (fun x => cls x = true) run -> cls c = false ->
  rmatch p (c :: s3) = Some (m', g, rest) ->
  rmatch (Star cls :: p) (run ++ c :: s3) = Some (run ++ m', g, rest).
Proof.
  intros Hall Hc Hk. cbn [rmatch].
  rewrite (star_complete cls (rmatch p) run s3 c _ Hall Hc Hk). reflexivity.
Qed.

Lemma rmatch_CapStar_inv (cls : N -> bool) (s m rest : text) (g : list text) :
  rmatch (CapStar cls :: p) s = Some (m, g, rest) ->
  exists run s2 m' g',
    Forall (fun c => cls c = true) run /\ g = run :: g' /\
    s = run ++ s2 /\ m = run ++ m' /\ rmatch p s2 = Some (m', g', rest).
Proof.
  cbn [rmatch]. intros H.
  destruct (star cls (rmatch p) s) as [[run [[m' g'] rest']]|] eqn:Hs;
    [|discriminate].
  cbn in H. injection H as <- <- <-.
  destruct (star_sound _ _ _ _ _ Hs) as (Hall & s2 & -> & Hk).
  exists run, s2, m', g'. auto.
Qed.

Lemma rmatch_CapStar_intro (cls : N -> bool) (run s3 m' rest : text) (c : N)
      (g : list text) :
  Forall (fun x => cls x = true) run -> cls c = false ->
  rmatch p (c :: s3) = Some (m', g, rest) ->
  rmatch (CapStar cls :: p) (run ++ c :: s3) = Some (run ++ m', run :: g, rest).
Proof.
  intros Hall Hc Hk. cbn [rmatch].
  rewrite (star_complete cls (rmatch p) run s3 c _ Hall Hc Hk). reflexivity.
Qed.

Lemma rmatch_CapAlt_inv (ts : list text) (s m rest : text) (g : list text) :
  rmatch (CapAlt ts :: p) s = Some (m, g, rest) ->
  exists t s2 m' g',
    In t ts /\ g = t :: g' /\
    s = t ++ s2 /\ m = t ++ m' /\ rmatch p s2 = Some (m', g', rest).
Proof.
  cbn [rmatch]. intros H.
  destruct (alt ts (rmatch p) s) as [[t [[m' g'] rest']]|] eqn:Hs;
    [|discriminate].
  cbn in H. injection H as <- <- <-.
  destruct (alt_sound _ _ _ _ _ Hs) as (Hin & s2 & -> & Hk).
  exists t, s2, m', g'. auto.
Qed.

End AtomFacts.

(** ** The pattern of the root tag *)

Section SvgTagPattern.

Lemma svg_tag_match_inv (s m rest : text) (g : list text) :
  rmatch svg_tag_re s = Some (m, g, rest) ->
  exists a, ~ In gt a /\ m = str "<svg" ++ a ++ [gt] /\ g = [a] /\ s = m ++ rest.
Proof.
  intros H. pose proof (rmatch_split _ _ _ _ _ H) as Hs.
  unfold svg_tag_re in H.
  apply rmatch_Lit_inv in H. destruct H as (s2 & m2 & -> & -> & H).
  apply rmatch_CapStar_inv in H.
  destruct H as (a & s3 & m3 & g3 & Ha & -> & -> & -> & H).
  apply rmatch_Lit_inv in H. destruct H as (s4 & m4 & -> & -> & H).
  rewrite rmatch_nil in H. injection H as <- <- <-.
  exists a. apply Forall_is_not in Ha. auto.
Qed.

Lemma svg_tag_match_intro (a rest : text) :
  ~ In gt a ->
  rmatch svg_tag_re (str "<svg" ++ a ++ gt :: rest) =
  Some (str "<svg" ++ a ++ [gt], [a], rest).
Proof.
  intros Ha. apply Forall_is_not in Ha. unfold svg_tag_re.
  apply rmatch_Lit_intro.
  apply (rmatch_CapStar_intro _ (is_not gt) a rest [gt] rest gt []);
    [exact Ha | apply is_not_self |].
  exact (rmatch_Lit_intro [] [gt] rest [] rest [] (rmatch_nil rest)).
Qed.

(** The text of the match does not occur before the match, so replacing
    its first occurrence replaces the match itself. *)
Lemma replace_first_match (s before m rest new : text) (g : list text) :
  search svg_tag_re s = Some (before, (m, g, rest)) ->
  replace_first m new s = before ++ new ++ rest.
Proof.
  intros Hsearch.
  destruct (search_split _ _ _ _ _ _ Hsearch) as (_ & Hm).
  destruct (svg_tag_match_inv _ _ _ _ Hm) as (a & Ha & Hform & _ & _).
  clear Hm. revert before Hsearch.
  induction s as [|c s IH]; intros before Hsearch.
  - cbn [search] in Hsearch.
    destruct (rmatch svg_tag_re []) as [r|] eqn:Hr; [|discriminate].
    injection Hsearch as <- ->.
    apply rmatch_split in Hr. destruct m; [|discriminate].
    cbn in Hr. subst rest. destruct a; discriminate.
  - cbn [search] in Hsearch.
    destruct (rmatch svg_tag_re (c :: s)) as [r|] eqn:Hr.
    + injection Hsearch as <- ->. apply rmatch_split in Hr.
      rewrite Hr. cbn [replace_first app].
      destruct m as [|x m]; [destruct a; discriminate|].
      cbn [app replace_first]. change (x :: m ++ rest) with ((x :: m) ++ rest).
      rewrite starts_with_app. reflexivity.
    + destruct (search svg_tag_re s) as [[before' r']|] eqn:Hs; [|discriminate].
      injection Hsearch as <- ->.
      cbn [replace_first].
      destruct (starts_with m (c :: s)) as [r|] eqn:Hst.
      * apply starts_with_inv in Hst. rewrite Hst, Hform in Hr.
        rewrite <- !app_assoc in Hr. cbn [app] in Hr.
        change (60%N :: 115%N :: 118%N :: 103%N :: a ++ gt :: r)
          with (str "<svg" ++ a ++ gt :: r) in Hr.
        rewrite (svg_tag_match_intro a r Ha) in Hr. discriminate.
      * cbn [app]. f_equal. apply IH. reflexivity.
Qed.

Lemma rewrite_svg_found (s before m rest : text) (g : list text) (width height : Z) :
  search svg_tag_re s = Some (before, (m, g, rest)) ->
  exists a,
    ~ In gt a /\ m = str "<svg" ++ a ++ [gt] /\ s = before ++ m ++ rest /\
    rewrite_svg s width height = before ++ new_tag a width height ++ rest.
Proof.
  intros Hsearch.
  destruct (search_split _ _ _ _ _ _ Hsearch) as (Hs & Hm).
  destruct (svg_tag_match_inv _ _ _ _ Hm) as (a & Ha & Hform & Hg & _).
  exists a. repeat split; auto.
  unfold rewrite_svg. rewrite Hsearch, Hg. cbn [nth].
  apply (replace_first_match _ _ _ _ _ _ Hsearch).
Qed.

Lemma rewrite_svg_not_found (s : text) (width height : Z) :
  search svg_tag_re s = None -> rewrite_svg s width height = s.
Proof. intros H. unfold rewrite_svg. rewrite H. reflexivity. Qed.

End SvgTagPattern.

(** ** Alpha compositing *)

Lemma composite_alpha_four (cv_error : text) (img : ndarray) (h w : Z) :
  shape img = [h; w; 4] ->
  composite_alpha cv_error img =
  Ok {| shape := [h; w; 3];
        pixels := map (fun px => if alpha_of px <? 128 then [255; 255; 255]
                                 else firstn 3 px) (pixels img) |}.
Proof.
  intros Hs. unfold composite_alpha, shape_at, rbind. rewrite Hs.
  cbn [nth_error]. change (4 =? 4) with true. cbv iota.
  unfold cvtColor_BGRA2BGR. cbn [whiten_transparent shape pixels]. rewrite Hs.
  change (4 =? 4) with true. cbv iota.
  do 2 f_equal. rewrite map_map. apply map_ext.
  intros px. destruct (alpha_of px <? 128); reflexivity.
Qed.

Lemma composite_alpha_other (cv_error : text) (img : ndarray) (c : Z) :
  nth_error (shape img) 2 = Some c -> c <> 4 ->
  composite_alpha cv_error img = Ok img /\ alpha_branch_taken img = false.
Proof.
  intros Hs Hc. unfold composite_alpha, alpha_branch_taken, shape_at, rbind.
  rewrite Hs. apply Z.eqb_neq in Hc. rewrite Hc. auto.
Qed.


(** C5.  When the image the handler has decoded from the upload has a fourth
    channel (shape h x w x 4), the alpha branch runs: every pixel whose alpha
    is below 128 is set to 255 in all four channels, every other pixel is
    left as it is (no blending), and the array is flattened to three channels
    by dropping the alpha.  The grayscale conversion is applied to that
    flattened array: an exception it raises on it is the handler's answer,
    and the handler answers in every respect as it would had the decoder
    returned the flattened array in the first place. *)
Theorem alpha_compositing {world upload pyfloat : Type}
        (e : env world upload pyfloat) (req : request upload pyfloat)
        (w w1 : world) (img : ndarray) (h wd : Z) :
  decode_upload e req w = (Ok (Some img), w1) ->
  shape img = [h; wd; 4] ->
  exists flat,
    alpha_branch_taken img = true /\
    cvtColor_BGRA2BGR (cv_error e) (whiten_transparent img) = Ok flat /\
    composite_alpha (cv_error e) img = Ok flat /\
    shape flat = [h; wd; 3] /\
    List.length (pixels flat) = List.length (pixels img) /\
    (forall i px, nth_error (pixels img) i = Some px ->
       nth_error (pixels (whiten_transparent img)) i =
         Some (if alpha_of px <? 128 then [255; 255; 255; 255] else px) /\
       nth_error (pixels flat) i =
         Some (if alpha_of px <? 128 then [255; 255; 255] else firstn 3 px)) /\
    (forall msg, cvtColor_BGR2GRAY e flat = Raise msg ->
       vectorize e req w = (error_response msg, w1)) /\
    vectorize e req w = vectorize (with_decoded e flat) req w.
Proof.
  intros Hd Hs.
  pose proof (composite_alpha_four (cv_error e) img h wd Hs) as Hc.
  eexists. split; [|split; [|split; [exact Hc|]]].
  - unfold alpha_branch_taken, shape_at. rewrite Hs. reflexivity.
  - rewrite <- Hc. unfold composite_alpha, shape_at, rbind. rewrite Hs.
    reflexivity.
  - cbn [shape pixels]. split; [reflexivity|]. split; [apply length_map|].
    split; [|split].
    + intros i px Hi. unfold whiten_transparent. cbn [pixels].
      rewrite !nth_error_map, Hi. split; reflexivity.
    + intros msg Hg. unfold vectorize, vectorize_body, bind, lift.
      rewrite Hd, Hc, Hg. reflexivity.
    + unfold vectorize, vectorize_body, bind, lift. rewrite Hd, Hc.
      unfold decode_upload, bind, lift in Hd |- *.
      cbn [file_read imdecode with_decoded].
      destruct (file_read e (file req) w) as [[contents|msg] w0]; [|discriminate].
      injection Hd as _ ->.
      unfold composite_alpha, shape_at, rbind. cbn [shape nth_error].
      change (3 =? 4) with false. cbv iota. reflexivity.
Qed.

Lemma alpha_compositing_witness :
  composite_alpha (str "cv2.error") demo_rgba =
    Ok {| shape := [1; 2; 3]; pixels := [[255; 255; 255]; [10; 20; 30]] |} /\
  vectorize (demo_env_with (Ok (Some demo_rgba)) (Ok (true, [])) true)
            (demo_request [Byte.x00] "otsu") false =
  vectorize (with_decoded (demo_env_with (Ok (Some demo_rgba)) (Ok (true, [])) true)
               {| shape := [1; 2; 3]; pixels := [[255; 255; 255]; [10; 20; 30]] |})
            (demo_request [Byte.x00] "otsu") false.
Proof.
  destruct (alpha_compositing
              (demo_env_with (Ok (Some demo_rgba)) (Ok (true, [])) true)
              (demo_request [Byte.x00] "otsu") false false demo_rgba 1 2
              eq_refl eq_refl)
    as (flat & _ & _ & Hc & _ & _ & _ & _ & Hv).
  assert (Hflat : flat = {| shape := [1; 2; 3];
                            pixels := [[255; 255; 255]; [10; 20; 30]] |}).
  { change (cv_error (demo_env_with (Ok (Some demo_rgba)) (Ok (true, [])) true))
      with (str "cv2.error") in Hc.
    assert (H : composite_alpha (str "cv2.error") demo_rgba =
                Ok {| shape := [1; 2; 3];
                      pixels := [[255; 255; 255]; [10; 20; 30]] |})
      by (vm_compute; reflexivity).
    rewrite H in Hc. injection Hc as <-. reflexivity. }
  subst flat. split; [vm_compute; reflexivity | exact Hv].
Defined.

(** ** The handler *)

Section HandlerFacts.

Context {world upload pyfloat : Type}.
Variable e : env world upload pyfloat.



End HandlerFacts.



Section Decimal.




End Decimal.

(** ** The pattern of the sizing attributes *)

Section SizingPattern.

Lemma sizing_name_facts (t : text) :
  In t sizing_names ->
  ~ In dquote t /\ ~ In equals t /\
  exists c t', t = c :: t' /\ is_space c = false.
Proof.
  intros Hin. unfold sizing_names in Hin. cbn [In] in Hin.
  destruct Hin as [<-|[<-|[<-|[<-|[]]]]]; (split; [|split]);
    try (cbn; intuition discriminate); eexists _, _; split; reflexivity.
Qed.

Lemma space_not_dquote (sp : text) :
  Forall (fun c => is_space c = true) sp -> ~ In dquote sp.
Proof.
  intros H Hin. rewrite Forall_forall in H. apply H in Hin. discriminate.
Qed.

(** A match is white space, one of the four names, an equals sign, and a
    double-quoted value. *)
Lemma sizing_match_inv (s m rest : text) (g : list text) :
  rmatch sizing_attr_re s = Some (m, g, rest) ->
  exists sp t v,
    sp <> [] /\ Forall (fun c => is_space c = true) sp /\
    In t sizing_names /\ ~ In dquote v /\
    s = sp ++ t ++ [equals; dquote] ++ v ++ dquote :: rest.
Proof.
  unfold sizing_attr_re. intros H.
  apply rmatch_Plus_inv in H. destruct H as (sp & s2 & m2 & Hne & Hsp & -> & -> & H).
  apply rmatch_CapAlt_inv in H.
  destruct H as (t & s3 & m3 & g3 & Hin & -> & -> & -> & H).
  apply rmatch_Lit_inv in H. destruct H as (s4 & m4 & -> & -> & H).
  apply rmatch_Star_inv in H. destruct H as (v & s5 & m5 & Hv & -> & -> & H).
  apply rmatch_Lit_inv in H. destruct H as (s6 & m6 & -> & -> & H).
  rewrite rmatch_nil in H. injection H as <- <- <-.
  apply Forall_is_not in Hv.
  exists sp, t, v. repeat split; auto.
Qed.

Lemma alt_sizing_intro (k : cont) (t s2 : text) (r : mres) :
  In t sizing_names -> k s2 = Some r ->
  alt sizing_names k (t ++ s2) = Some (t, r).
Proof.
  intros Hin Hk. unfold sizing_names in *. cbn [In] in Hin.
  destruct Hin as [<-|[<-|[<-|[<-|[]]]]]; cbn; rewrite Hk; reflexivity.
Qed.

Lemma sizing_match_intro (sp t v rest : text) :
  sp <> [] -> Forall (fun c => is_space c = true) sp ->
  In t sizing_names -> ~ In dquote v ->
  rmatch sizing_attr_re (sp ++ t ++ [equals; dquote] ++ v ++ dquote :: rest) =
  Some (sp ++ t ++ [equals; dquote] ++ v ++ [dquote], [t], rest).
Proof.
  intros Hne Hsp Hin Hv. apply Forall_is_not in Hv.
  destruct (sizing_name_facts t Hin) as (_ & _ & c & t' & Ht & Hc).
  unfold sizing_attr_re.
  assert (Htail : rmatch [Lit (str "=" ++ [dquote]); Star (is_not dquote); Lit [dquote]]
                         ([equals; dquote] ++ v ++ dquote :: rest) =
                  Some ([equals; dquote] ++ v ++ [dquote], [], rest)).
  { apply (rmatch_Lit_intro _ (str "=" ++ [dquote]) (v ++ dquote :: rest)
                            (v ++ [dquote]) rest []).
    apply (rmatch_Star_intro _ (is_not dquote) v rest [dquote] rest dquote []);
      [exact Hv | apply is_not_self |].
    exact (rmatch_Lit_intro [] [dquote] rest [] rest [] (rmatch_nil rest)). }
  assert (Hmid : rmatch [CapAlt sizing_names; Lit (str "=" ++ [dquote]);
                         Star (is_not dquote); Lit [dquote]]
                        (t ++ [equals; dquote] ++ v ++ dquote :: rest) =
                 Some (t ++ [equals; dquote] ++ v ++ [dquote], [t], rest)).
  { change (rmatch (CapAlt sizing_names ::
                      [Lit (str "=" ++ [dquote]); Star (is_not dquote); Lit [dquote]])
                   (t ++ [equals; dquote] ++ v ++ dquote :: rest))
      with (option_map (prepend [] true)
              (alt sizing_names
                   (rmatch [Lit (str "=" ++ [dquote]); Star (is_not dquote);
                            Lit [dquote]])
                   (t ++ [equals; dquote] ++ v ++ dquote :: rest))).
    rewrite (alt_sizing_intro _ t _ _ Hin Htail). reflexivity. }
  rewrite Ht in Hmid at 1. cbn [app] in Hmid.
  rewrite Ht at 1. cbn [app].
  apply (rmatch_Plus_intro _ is_space sp _ _ rest c [t] Hne Hsp Hc Hmid).
Qed.

Lemma no_match_at_nonspace (c : N) (s : text) :
  is_space c = false -> rmatch sizing_attr_re (c :: s) = None.
Proof.
  intros Hc. destruct (rmatch sizing_attr_re (c :: s)) as [[[m g] rest]|] eqn:Hm;
    [|reflexivity].
  apply sizing_match_inv in Hm.
  destruct Hm as (sp & t & v & Hne & Hsp & _ & _ & Heq).
  destruct sp as [|x sp]; [congruence|]. injection Heq as -> _.
  apply Forall_inv in Hsp. congruence.
Qed.

Lemma no_match_without_quote (s : text) :
  ~ In dquote s -> rmatch sizing_attr_re s = None.
Proof.
  intros Hq. destruct (rmatch sizing_attr_re s) as [[[m g] rest]|] eqn:Hm;
    [|reflexivity].
  apply sizing_match_inv in Hm.
  destruct Hm as (sp & t & v & _ & _ & _ & _ & ->).
  exfalso. apply Hq. rewrite !in_app_iff. right. right. left. cbn. auto.
Qed.

(** Scanning: the three equations of [strip_sizing]. *)

Lemma match_shortens (s m rest : text) (g : list text) :
  rmatch sizing_attr_re s = Some (m, g, rest) ->
  (List.length rest < List.length s)%nat.
Proof.
  intros H. apply sizing_match_inv in H.
  destruct H as (sp & t & v & _ & _ & _ & _ & ->).
  rewrite !length_app. cbn [List.length]. lia.
Qed.

Lemma sub_fuel_enough (fuel1 fuel2 : nat) (s : text) :
  (List.length s < fuel1)%nat -> (List.length s < fuel2)%nat ->
  sub_empty_aux sizing_attr_re fuel1 s = sub_empty_aux sizing_attr_re fuel2 s.
Proof.
  revert fuel2 s. induction fuel1 as [|fuel1 IH]; intros fuel2 s H1 H2; [lia|].
  destruct fuel2 as [|fuel2]; [lia|]. cbn [sub_empty_aux].
  destruct s as [|c s]; [reflexivity|].
  destruct (rmatch sizing_attr_re (c :: s)) as [[[m g] rest]|] eqn:Hm.
  - apply match_shortens in Hm. cbn [List.length] in *. apply IH; lia.
  - f_equal. cbn [List.length] in *. apply IH; lia.
Qed.

Lemma strip_nil : strip_sizing [] = [].
Proof. reflexivity. Qed.

Lemma strip_match (s m rest : text) (g : list text) :
  rmatch sizing_attr_re s = Some (m, g, rest) ->
  strip_sizing s = strip_sizing rest.
Proof.
  intros Hm. pose proof (match_shortens _ _ _ _ Hm) as Hlen.
  unfold strip_sizing, sub_empty.
  destruct s as [|c s]; [cbn in Hlen; lia|].
  transitivity (sub_empty_aux sizing_attr_re (List.length (c :: s)) rest).
  - change (sub_empty_aux sizing_attr_re (S (List.length (c :: s))) (c :: s))
      with (match rmatch sizing_attr_re (c :: s) with
            | Some (_, _, rest) =>
                sub_empty_aux sizing_attr_re (List.length (c :: s)) rest
            | None => c :: sub_empty_aux sizing_attr_re (List.length (c :: s)) s
            end).
    rewrite Hm. reflexivity.
  - apply sub_fuel_enough; lia.
Qed.

Lemma strip_skip (c : N) (s : text) :
  rmatch sizing_attr_re (c :: s) = None ->
  strip_sizing (c :: s) = c :: strip_sizing s.
Proof.
  intros Hm. unfold strip_sizing, sub_empty.
  change (sub_empty_aux sizing_attr_re (S (List.length (c :: s))) (c :: s))
    with (match rmatch sizing_attr_re (c :: s) with
          | Some (_, _, rest) =>
              sub_empty_aux sizing_attr_re (List.length (c :: s)) rest
          | None => c :: sub_empty_aux sizing_attr_re (List.length (c :: s)) s
          end).
  rewrite Hm. reflexivity.
Qed.

Lemma strip_nonspace_prefix (x rest : text) :
  Forall (fun c => is_space c = false) x ->
  strip_sizing (x ++ rest) = x ++ strip_sizing rest.
Proof.
  induction 1 as [|c x Hc _ IH]; [reflexivity|].
  cbn [app]. rewrite strip_skip by (apply no_match_at_nonspace; exact Hc).
  f_equal. exact IH.
Qed.

Lemma strip_without_quote (s : text) : ~ In dquote s -> strip_sizing s = s.
Proof.
  induction s as [|c s IH]; intros Hq; [reflexivity|].
  rewrite strip_skip by (apply no_match_without_quote; exact Hq).
  f_equal. apply IH. intros Hin. apply Hq. right. exact Hin.
Qed.

End SizingPattern.

(** ** Scanning a list of double-quoted attributes *)

Section Scanning.

Lemma xml_space_is_space (c : N) : xml_space c = true -> is_space c = true.
Proof.
  unfold xml_space. rewrite !orb_true_iff, !N.eqb_eq.
  intros [[[->| ->]| ->]| ->]; reflexivity.
Qed.

Lemma name_char_facts (c : N) :
  name_char c = true ->
  is_space c = false /\ xml_space c = false /\ c <> equals /\ c <> dquote.
Proof.
  unfold name_char. rewrite !andb_true_iff, !negb_true_iff, !N.eqb_neq.
  intros ((((((Hs & He) & Hd) & _) & _) & _) & _).
  repeat split; auto.
  destruct (xml_space c) eqn:Hx; [|reflexivity].
  apply xml_space_is_space in Hx. congruence.
Qed.

Lemma xml_spaces_are_spaces (sp : text) :
  Forall (fun c => xml_space c = true) sp -> Forall (fun c => is_space c = true) sp.
Proof. apply Forall_impl. exact xml_space_is_space. Qed.

Lemma name_no_equals (n : text) :
  Forall (fun c => name_char c = true) n -> ~ In equals n.
Proof.
  intros H Hin. rewrite Forall_forall in H. apply H in Hin. discriminate.
Qed.


Lemma name_no_space (n : text) :
  Forall (fun c => name_char c = true) n -> Forall (fun c => is_space c = false) n.
Proof. apply Forall_impl. intros c Hc. apply (name_char_facts c Hc). Qed.

Lemma render_app (a : attr) (r : text) :
  render a ++ r =
  a_space a ++ a_name a ++ [equals; dquote] ++ a_value a ++ dquote :: r.
Proof. unfold render. rewrite <- !app_assoc. reflexivity. Qed.

Lemma render_all_cons (a : attr) (l : list attr) (r : text) :
  render_all (a :: l) ++ r = render a ++ render_all l ++ r.
Proof. cbn [render_all flat_map]. rewrite <- app_assoc. reflexivity. Qed.

Lemma match_head_no_dquote (sp t : text) :
  Forall (fun c => is_space c = true) sp -> In t sizing_names ->
  ~ In dquote (sp ++ t ++ [equals]).
Proof.
  intros Hsp Hin. destruct (sizing_name_facts t Hin) as (Ht & _).
  rewrite !in_app_iff. intros [H|[H|H]].
  - exact (space_not_dquote _ Hsp H).
  - exact (Ht H).
  - cbn in H. destruct H as [H|[]]. discriminate.
Qed.


Lemma strip_dquote (x : text) : strip_sizing (dquote :: x) = dquote :: strip_sizing x.
Proof. apply strip_skip, no_match_at_nonspace. reflexivity. Qed.


(** White space before an attribute whose name is not a sizing name starts
    no match. *)
Lemma no_match_at_other_attr (sp n x : text) :
  sp <> [] -> Forall (fun c => is_space c = true) sp ->
  n <> [] -> Forall (fun c => name_char c = true) n ->
  ~ In n sizing_names ->
  rmatch sizing_attr_re (sp ++ n ++ [equals; dquote] ++ x) = None.
Proof.
  intros Hne Hsp Hnn Hn Hother.
  destruct (rmatch sizing_attr_re (sp ++ n ++ [equals; dquote] ++ x))
    as [[[m g] rest]|] eqn:Hm; [|reflexivity].
  apply sizing_match_inv in Hm.
  destruct Hm as (sp' & t & body & _ & Hsp' & Hin & _ & Heq).
  destruct (sizing_name_facts t Hin) as (_ & Hteq & c & t' & -> & Hc).
  destruct n as [|y n']; [congruence|].
  pose proof (Forall_inv Hn) as Hy. apply name_char_facts in Hy.
  destruct Hy as (Hy & _). cbn [app] in Heq.
  destruct (run_unique is_space _ _ _ _ _ _ Hsp Hsp' Hy Hc Heq) as (_ & -> & Heq').
  replace (n' ++ [equals; dquote] ++ x) with (n' ++ equals :: dquote :: x) in Heq'
    by reflexivity.
  replace (t' ++ [equals; dquote] ++ body ++ dquote :: rest)
    with (t' ++ equals :: dquote :: body ++ dquote :: rest) in Heq' by reflexivity.
  assert (Hn' : ~ In equals n').
  { intros H. apply (name_no_equals _ Hn). right. exact H. }
  assert (Ht' : ~ In equals t').
  { intros H. apply Hteq. right. exact H. }
  destruct (first_unique equals _ _ _ _ Hn' Ht' Heq') as (-> & _).
  contradiction.
Qed.

Lemma strip_other_attr_head (sp n x : text) :
  Forall (fun c => is_space c = true) sp ->
  n <> [] -> Forall (fun c => name_char c = true) n ->
  ~ In n sizing_names ->
  strip_sizing (sp ++ n ++ [equals; dquote] ++ x) =
  sp ++ n ++ [equals; dquote] ++ strip_sizing x.
Proof.
  intros Hsp Hnn Hn Hother.
  induction Hsp as [|c sp Hc Hsp IH].
  - cbn [app].
    rewrite (strip_nonspace_prefix n) by (apply name_no_space; exact Hn).
    rewrite (strip_skip equals) by (apply no_match_at_nonspace; reflexivity).
    rewrite strip_dquote. reflexivity.
  - change ((c :: sp) ++ n ++ [equals; dquote] ++ x)
      with (c :: sp ++ n ++ [equals; dquote] ++ x).
    rewrite strip_skip.
    + rewrite IH. reflexivity.
    + apply (no_match_at_other_attr (c :: sp) n x); auto.
      discriminate.
Qed.

End Scanning.

(** ** Reading the rewritten tag *)

Section Parsing.

Lemma parse_spaces_spaced (sp s : text) :
  Forall (fun c => xml_space c = true) sp ->
  parse_from (Gap true) (sp ++ s) = parse_from (Gap true) s.
Proof.
  induction 1 as [|c sp Hc _ IH]; [reflexivity|].
  cbn [app parse_from]. rewrite Hc. exact IH.
Qed.

Lemma parse_spaces (b : bool) (sp s : text) :
  sp <> [] -> Forall (fun c => xml_space c = true) sp ->
  parse_from (Gap b) (sp ++ s) = parse_from (Gap true) s.
Proof.
  intros Hne Hsp. destruct Hsp as [|c sp Hc Hsp]; [congruence|].
  cbn [app parse_from]. rewrite Hc. apply parse_spaces_spaced. exact Hsp.
Qed.

Lemma parse_name (acc n s : text) :
  Forall (fun c => name_char c = true) n ->
  parse_from (InName acc) (n ++ equals :: s) = parse_from (PostEq (acc ++ n)) s.
Proof.
  intros Hn. revert acc. induction Hn as [|c n Hc _ IH]; intros acc.
  - cbn [app parse_from]. rewrite app_nil_r. reflexivity.
  - cbn [app parse_from]. rewrite Hc, IH, <- app_assoc. reflexivity.
Qed.

Lemma parse_value (n v s : text) :
  ~ In dquote v ->
  parse_from (InValue n dquote) (v ++ dquote :: s) =
  option_map (cons n) (parse_from (Gap false) s).
Proof.
  intros Hv. induction v as [|c v IH].
  - reflexivity.
  - cbn [app parse_from].
    destruct (N.eqb_spec c dquote) as [->|_].
    + exfalso. apply Hv. left. reflexivity.
    + apply IH. intros H. apply Hv. right. exact H.
Qed.

Lemma parse_attr (b : bool) (a : attr) (s : text) :
  wf_attr a ->
  parse_from (Gap b) (render a ++ s) =
  option_map (cons (a_name a)) (parse_from (Gap false) s).
Proof.
  intros (Hne & Hsp & Hnn & Hn & Hv).
  rewrite render_app, (parse_spaces b _ _ Hne Hsp).
  destruct (a_name a) as [|c n]; [congruence|].
  pose proof (Forall_inv Hn) as Hc. pose proof (Forall_inv_tail Hn) as Hn'.
  destruct (name_char_facts c Hc) as (_ & Hx & _ & _).
  cbn [app parse_from]. rewrite Hx, Hc. cbn [andb].
  change (n ++ equals :: dquote :: a_value a ++ dquote :: s)
    with (n ++ equals :: (dquote :: a_value a ++ dquote :: s)).
  rewrite (parse_name [c] n _ Hn'). cbn [app parse_from].
  change (xml_space dquote) with false. cbv iota.
  change ((dquote =? dquote)%N || (dquote =? squote)%N) with true. cbv iota.
  apply parse_value. exact Hv.
Qed.

Lemma parse_render_all (b : bool) (l : list attr) :
  Forall wf_attr l ->
  parse_from (Gap b) (render_all l) = Some (map a_name l).
Proof.
  intros Hl. revert b. induction Hl as [|a l Ha _ IH]; intros b.
  - reflexivity.
  - cbn [render_all flat_map map]. rewrite (parse_attr b a _ Ha).
    fold (render_all l). rewrite IH. reflexivity.
Qed.

End Parsing.

Section ResponsiveAttrs.

Lemma uint_no_dquote (d : Decimal.uint) :
  ~ In dquote (str (NilEmpty.string_of_uint d)).
Proof.
  induction d; cbn; [intros [] | ..]; intros [H|H]; try discriminate; auto.
Qed.

Lemma format_int_no_dquote (n : Z) : ~ In dquote (format_int n).
Proof.
  unfold format_int.
  destruct (Z.to_int n) as [d|d]; cbn [NilZero.string_of_int].
  - destruct d; try apply uint_no_dquote. cbn. intros [H|[]]. discriminate.
  - change (str (String "-" (NilZero.string_of_uint d)))
      with (45%N :: str (NilZero.string_of_uint d)).
    intros [H|H]; [discriminate|]. revert H.
    destruct d; try apply uint_no_dquote. cbn. intros [H|[]]. discriminate.
Qed.

Lemma responsive_list_render (sp : text) (width height : Z) :
  sp ++ responsive_attrs width height =
  render_all (responsive_list sp width height).
Proof.
  unfold responsive_attrs, responsive_list, render_all, render.
  cbn [flat_map a_space a_name a_value].
  rewrite <- !app_assoc. reflexivity.
Qed.

Lemma responsive_list_wf (sp : text) (width height : Z) :
  Forall (fun c => xml_space c = true) sp ->
  Forall wf_attr (responsive_list sp width height).
Proof.
  intros Hsp. unfold responsive_list.
  repeat constructor; cbn [a_space a_name a_value];
    try discriminate; try (intros H; cbn in H; intuition discriminate).
  - intros H. apply app_eq_nil in H. destruct H as (_ & H). discriminate.
  - apply Forall_app. split; [exact Hsp|]. repeat constructor.
  - rewrite !in_app_iff. intros [H|[H|[H|H]]].
    + cbn in H. intuition discriminate.
    + exact (format_int_no_dquote _ H).
    + cbn in H. intuition discriminate.
    + exact (format_int_no_dquote _ H).
Qed.

Lemma responsive_list_names (sp : text) (width height : Z) :
  map a_name (responsive_list sp width height) =
  [str "width"; str "height"; str "viewBox"; str "preserveAspectRatio"; str "style"].
Proof. reflexivity. Qed.

End ResponsiveAttrs.

(** ** Scanning a list of attributes in general syntax *)

Section GeneralScanning.
























End GeneralScanning.

(** ** Reading a list of attributes in general syntax *)

Section GeneralReading.















End GeneralReading.





(** ** The first root tag of a text *)

Section FirstTag.








End FirstTag.




(** The two provisos on values are needed.  A value that holds > ends the
    match of the root tag early, and a single-quoted value that holds a
    double quote lets a match of the sizing pattern begin inside it: either
    way the rewritten text is no attribute list any more. *)
Lemma gt_inside_value_breaks_tag :
  rewrite_svg (str "<svg a=" ++ [dquote] ++ str "x>y" ++ [dquote] ++
               str " width=" ++ [dquote] ++ str "1" ++ [dquote] ++ str ">") 10 20 =
    str "<svg" ++ new_tag_attrs (str " a=" ++ [dquote] ++ str "x") 10 20 ++ [gt] ++
    str "y" ++ [dquote] ++ str " width=" ++ [dquote] ++ str "1" ++ [dquote] ++ str ">" /\
  attr_names (new_tag_attrs (str " a=" ++ [dquote] ++ str "x") 10 20) = None.
Proof. split; vm_compute; reflexivity. Qed.

Lemma dquote_inside_single_quotes_breaks_tag :
  attr_names (str " a=' width=" ++ [dquote] ++ str "x' width=" ++ [dquote] ++
              str "1" ++ [dquote]) = Some [str "a"; str "width"] /\
  strip_sizing (str " a=' width=" ++ [dquote] ++ str "x' width=" ++ [dquote] ++
                str "1" ++ [dquote]) = str " a='1" ++ [dquote] /\
  attr_names (new_tag_attrs (str " a=' width=" ++ [dquote] ++ str "x' width=" ++
                             [dquote] ++ str "1" ++ [dquote]) 10 20) = None.
Proof. repeat split; vm_compute; reflexivity. Qed.

(** ** The dimensions a successful request reports *)






(** * Further properties of the pipeline *)

(** ** The mask handed to the vectorizer *)

Section MaskFacts.

Lemma threshold_binary_length (src : raster) (t m : Z) :
  List.length (threshold_binary src t m) = List.length src.
Proof. apply length_map. Qed.

Lemma adaptive_length (lm : raster -> nat -> Z) (gray : raster) :
  List.length (apply_adaptive_threshold lm gray) = List.length gray.
Proof.
  unfold apply_adaptive_threshold, indexed.
  rewrite length_map, length_combine, length_seq. apply Nat.min_id.
Qed.

Lemma normalize_polarity_length (p : raster) :
  List.length (normalize_polarity p) = List.length p.
Proof.
  unfold normalize_polarity. destruct (needs_inversion p); [apply length_map|reflexivity].
Qed.

Lemma all_black_counts (n : nat) :
  black_pixels (repeat 0 n) = Z.of_nat n /\ white_pixels (repeat 0 n) = 0.
Proof.
  unfold black_pixels, white_pixels, eq_mask.
  induction n as [|n (IHb & IHw)]; [split; reflexivity|].
  cbn [repeat map np_sum]. rewrite IHb, IHw, Nat2Z.inj_succ.
  change (0 =? 0) with true. change (0 =? 255) with false. cbv iota. split; lia.
Qed.

Lemma map_const_repeat {A B : Type} (b : B) (l : list A) :
  map (fun _ => b) l = repeat b (List.length l).
Proof. induction l as [|a l IH]; [reflexivity|]. cbn. f_equal. exact IH. Qed.

End MaskFacts.

(** X1.  Whatever the image, the algorithm and the cutoff, the raster the
    handler encodes for the vectorizer is binary and at most two thirds
    black: black <= 2 * white, hence 3 * black <= 2 * (number of pixels). *)
Theorem preprocess_mostly_white {world upload pyfloat : Type}
        (e : env world upload pyfloat) (req : request upload pyfloat)
        (gray : raster) :
  binary (preprocess e req gray) /\
  black_pixels (preprocess e req gray) <= 2 * white_pixels (preprocess e req gray) /\
  3 * black_pixels (preprocess e req gray) <=
  2 * Z.of_nat (List.length (preprocess e req gray)).
Proof.
  unfold preprocess.
  pose proof (binarize_binary (local_mean e) (medianBlur3 e) (otsu_level e) gray
                (algorithm req) (manualThreshold req) (threshold req)) as Hb.
  set (p := binarize _ _ _ _ _ _ _) in *.
  pose proof (normalize_polarity_binary p Hb) as Hn.
  pose proof (binary_counts _ Hn) as Hsum.
  assert (Hle : black_pixels (normalize_polarity p) <=
                2 * white_pixels (normalize_polarity p)).
  { unfold normalize_polarity. destruct (needs_inversion p) eqn:Hg.
    - destruct (bitwise_not_binary p Hb) as (_ & _ & Hbl & Hwh).
      rewrite Hbl, Hwh. unfold needs_inversion in Hg. apply Z.ltb_lt in Hg.
      pose proof (np_sum_nonneg (eq_mask p 255)) as H0.
      fold (white_pixels p) in H0. lia.
    - unfold needs_inversion in Hg. apply Z.ltb_ge in Hg. lia. }
  repeat split; [exact Hn | exact Hle | lia].
Qed.

(** X2.  The mask has one pixel per pixel of the grayscale image, provided
    the median filter keeps the image size (as OpenCV's does). *)
Theorem preprocess_keeps_size {world upload pyfloat : Type}
        (e : env world upload pyfloat) (req : request upload pyfloat)
        (gray : raster) :
  (forall g, List.length (medianBlur3 e g) = List.length g) ->
  List.length (preprocess e req gray) = List.length gray.
Proof.
  intros Hmed. unfold preprocess. rewrite normalize_polarity_length.
  unfold binarize, otsu_threshold, apply_median_filter.
  destruct (String.eqb (algorithm req) "adaptive"); [apply adaptive_length|].
  destruct (manualThreshold req); rewrite threshold_binary_length;
    destruct (String.eqb (algorithm req) "median-otsu"); auto.
Qed.

Lemma preprocess_keeps_size_witness :
  List.length (preprocess demo_env (demo_request [] "median-otsu") [10; 200; 30]) = 3%nat.
Proof.
  apply (preprocess_keeps_size demo_env (demo_request [] "median-otsu") [10; 200; 30]).
  intros g. reflexivity.
Defined.

(** X3.  A manual cutoff outside 0..254 gives a blank mask: with a cutoff
    below 0 every pixel is white at once; with a cutoff of 255 or more every
    pixel is black, the polarity step inverts the whole raster, and every
    pixel is white again. *)
Theorem manual_cutoff_out_of_range
        (lm : raster -> nat -> Z) (mb : raster -> raster) (ol : raster -> Z)
        (gray : raster) (algorithm : string) (cutoff : Z) :
  algorithm <> "adaptive"%string -> algorithm <> "median-otsu"%string ->
  Forall is_u8 gray ->
  cutoff < 0 \/ 255 <= cutoff ->
  normalize_polarity (binarize lm mb ol gray algorithm true cutoff) =
  repeat 255 (List.length gray).
Proof.
  intros Ha Hm Hu8 Hcut.
  apply String.eqb_neq in Ha, Hm. unfold binarize. rewrite Ha, Hm.
  destruct Hcut as [Hlow|Hhigh].
  - assert (Hall : threshold_binary gray cutoff 255 = repeat 255 (List.length gray)).
    { unfold threshold_binary. rewrite <- map_const_repeat.
      apply map_ext_in. intros v Hv. rewrite Forall_forall in Hu8.
      specialize (Hu8 v Hv). unfold is_u8 in Hu8.
      destruct (Z.ltb_spec cutoff v); [reflexivity|lia]. }
    rewrite Hall. unfold normalize_polarity, needs_inversion.
    assert (Hb : forall n, black_pixels (repeat 255 n) = 0).
    { unfold black_pixels, eq_mask. induction n as [|n IH];
        [reflexivity|]. cbn [repeat map np_sum]. rewrite IH. reflexivity. }
    rewrite Hb.
    pose proof (np_sum_nonneg (eq_mask (repeat 255 (List.length gray)) 255)) as H0.
    fold (white_pixels (repeat 255 (List.length gray))) in H0.
    destruct (Z.ltb_spec (white_pixels (repeat 255 (List.length gray)) * 2) 0);
      [lia|reflexivity].
  - assert (Hall : threshold_binary gray cutoff 255 = repeat 0 (List.length gray)).
    { unfold threshold_binary. rewrite <- map_const_repeat.
      apply map_ext_in. intros v Hv. rewrite Forall_forall in Hu8.
      specialize (Hu8 v Hv). unfold is_u8 in Hu8.
      destruct (Z.ltb_spec cutoff v); [lia|reflexivity]. }
    rewrite Hall. unfold normalize_polarity, needs_inversion.
    destruct (all_black_counts (List.length gray)) as (Hb & Hw). rewrite Hb, Hw.
    destruct (List.length gray) as [|n] eqn:Hn; [reflexivity|].
    destruct (Z.ltb_spec (0 * 2) (Z.of_nat (S n))); [|lia].
    unfold bitwise_not. rewrite map_repeat. reflexivity.
Qed.

Lemma manual_cutoff_out_of_range_witness :
  normalize_polarity
    (binarize (fun _ _ => 0) (fun g => g) (fun _ => 0) [0; 17; 255] "otsu" true 255) =
  [255; 255; 255].
Proof.
  apply (manual_cutoff_out_of_range (fun _ _ => 0) (fun g => g) (fun _ => 0)
                                    [0; 17; 255] "otsu" 255).
  - discriminate.
  - discriminate.
  - repeat constructor; unfold is_u8; lia.
  - right. lia.
Defined.

(** X4.  Before the polarity step a higher manual cutoff never whitens a
    pixel: with the same image and algorithm, every pixel that is white at
    the higher cutoff is white at the lower one. *)
Theorem manual_cutoff_monotone
        (lm : raster -> nat -> Z) (mb : raster -> raster) (ol : raster -> Z)
        (gray : raster) (algorithm : string) (low high : Z) (i : nat) :
  algorithm <> "adaptive"%string ->
  low <= high ->
  nth_error (binarize lm mb ol gray algorithm true high) i = Some 255 ->
  nth_error (binarize lm mb ol gray algorithm true low) i = Some 255.
Proof.
  intros Ha Hle. apply String.eqb_neq in Ha. unfold binarize. rewrite Ha.
  set (g := if String.eqb algorithm "median-otsu" then apply_median_filter mb gray
            else gray).
  unfold threshold_binary. rewrite !nth_error_map.
  destruct (nth_error g i) as [v|]; [|discriminate]. cbn [option_map].
  destruct (Z.ltb_spec high v); [|discriminate]. intros _.
  destruct (Z.ltb_spec low v); [reflexivity|lia].
Qed.

Lemma manual_cutoff_monotone_witness :
  nth_error (binarize (fun _ _ => 0) (fun g => g) (fun _ => 0)
                      [10; 200] "otsu" true 50) 1 = Some 255.
Proof.
  apply (manual_cutoff_monotone (fun _ _ => 0) (fun g => g) (fun _ => 0)
                                [10; 200] "otsu" 50 100 1).
  - discriminate.
  - lia.
  - reflexivity.
Defined.

(** ** Alpha compositing on well-formed images *)

Section AlphaFacts.

Lemma firstn_3_of_4 (px : list Z) :
  List.length px = 4%nat -> Forall is_u8 px ->
  List.length (firstn 3 px) = 3%nat /\ Forall is_u8 (firstn 3 px).
Proof.
  destruct px as [|a [|b [|c [|d [|x px]]]]]; try discriminate.
  intros _ H. cbn [firstn]. split; [reflexivity|].
  inversion H as [|? ? Ha H1]; subst. inversion H1 as [|? ? Hb H2]; subst.
  inversion H2 as [|? ? Hc H3]; subst.
  constructor; [assumption|]. constructor; [assumption|].
  constructor; [assumption|]. constructor.
Qed.

End AlphaFacts.

(** X5.  Compositing keeps an image well formed: an h x w x 4 array of 8-bit
    values with h * w pixels comes out as an h x w x 3 array of 8-bit values
    with the same number of pixels, and no exception is raised. *)
Theorem composite_alpha_well_shaped (cv_error : text) (img : ndarray) :
  well_shaped img 4 ->
  exists flat,
    composite_alpha cv_error img = Ok flat /\
    well_shaped flat 3 /\
    shape_at flat 0 = shape_at img 0 /\ shape_at flat 1 = shape_at img 1 /\
    List.length (pixels flat) = List.length (pixels img).
Proof.
  intros (h & w & Hs & Hn & Hpx). change (Z.of_nat 4) with 4 in Hs.
  eexists. split; [apply (composite_alpha_four cv_error img h w Hs)|].
  cbn [shape pixels]. split; [|split; [|split]].
  - exists h, w. cbn [shape pixels]. split; [reflexivity|]. split.
    + rewrite length_map. exact Hn.
    + apply Forall_map. apply (Forall_impl _ (P := fun px =>
        List.length px = 4%nat /\ Forall is_u8 px)); [|exact Hpx].
      intros px (Hl & Hu). destruct (alpha_of px <? 128).
      * split; [reflexivity|]. repeat constructor; unfold is_u8; lia.
      * apply firstn_3_of_4; assumption.
  - unfold shape_at. rewrite Hs. reflexivity.
  - unfold shape_at. rewrite Hs. reflexivity.
  - apply length_map.
Qed.

Lemma composite_alpha_well_shaped_witness :
  exists flat,
    composite_alpha [] {| shape := [1; 2; 4];
                          pixels := [[1; 2; 3; 0]; [4; 5; 6; 255]] |} = Ok flat /\
    well_shaped flat 3.
Proof.
  destruct (composite_alpha_well_shaped []
              {| shape := [1; 2; 4]; pixels := [[1; 2; 3; 0]; [4; 5; 6; 255]] |})
    as (flat & Hc & Hw & _).
  - exists 1, 2. cbn [shape pixels]. split; [reflexivity|]. split; [reflexivity|].
    repeat constructor; unfold is_u8; lia.
  - exists flat. auto.
Defined.

(** X6.  The two extremes of the alpha cutoff: an image whose every alpha is
    at least 128 only loses its alpha channel, and an image whose every alpha
    is below 128 becomes entirely white. *)
Theorem composite_alpha_extremes (cv_error : text) (img : ndarray) (h w : Z) :
  shape img = [h; w; 4] ->
  (Forall (fun px => 128 <= alpha_of px) (pixels img) ->
   composite_alpha cv_error img =
   Ok {| shape := [h; w; 3]; pixels := map (firstn 3) (pixels img) |}) /\
  (Forall (fun px => alpha_of px < 128) (pixels img) ->
   composite_alpha cv_error img =
   Ok {| shape := [h; w; 3];
         pixels := repeat [255; 255; 255] (List.length (pixels img)) |}).
Proof.
  intros Hs. rewrite (composite_alpha_four cv_error img h w Hs). split; intros Hall.
  - do 2 f_equal. apply map_ext_in. intros px Hin.
    rewrite Forall_forall in Hall. specialize (Hall px Hin).
    destruct (Z.ltb_spec (alpha_of px) 128); [lia|reflexivity].
  - do 2 f_equal. rewrite <- map_const_repeat. apply map_ext_in. intros px Hin.
    rewrite Forall_forall in Hall. specialize (Hall px Hin).
    destruct (Z.ltb_spec (alpha_of px) 128); [reflexivity|lia].
Qed.

Lemma composite_alpha_extremes_witness :
  composite_alpha [] {| shape := [1; 2; 4];
                        pixels := [[1; 2; 3; 0]; [4; 5; 6; 127]] |} =
  Ok {| shape := [1; 2; 3]; pixels := [[255; 255; 255]; [255; 255; 255]] |}.
Proof.
  apply (proj2 (composite_alpha_extremes []
                  {| shape := [1; 2; 4];
                     pixels := [[1; 2; 3; 0]; [4; 5; 6; 127]] |} 1 2 eq_refl)).
  repeat constructor.
Defined.

(** ** Early exits of the handler *)

(** X7.  An array with fewer than three axes makes [img.shape[2]] raise
    IndexError: the handler answers with the text of that exception and no
    later stage touches the world. *)
Theorem two_axis_image_is_an_error {world upload pyfloat : Type}
        (e : env world upload pyfloat) (req : request upload pyfloat)
        (w w1 : world) (img : ndarray) :
  decode_upload e req w = (Ok (Some img), w1) ->
  nth_error (shape img) 2 = None ->
  vectorize e req w = (error_response (str "tuple index out of range"), w1).
Proof.
  intros Hd Hs. unfold vectorize, vectorize_body, bind. rewrite Hd.
  unfold lift, composite_alpha, shape_at, rbind. rewrite Hs. reflexivity.
Qed.

Lemma two_axis_image_is_an_error_witness :
  vectorize
    (demo_env_with (Ok (Some {| shape := [1; 2]; pixels := [[0]; [255]] |}))
                   (Ok (true, [])) true)
    (demo_request [Byte.x00] "otsu") false =
  (error_response (str "tuple index out of range"), false).
Proof.
  apply two_axis_image_is_an_error with
    (img := {| shape := [1; 2]; pixels := [[0]; [255]] |}); reflexivity.
Defined.

(** X8.  When the PNG encoder reports failure the handler answers "Failed to
    encode image"; nothing is written and the vectorizer is not run: the
    world is the one the decode step left. *)
Theorem encode_failure_stops_early {world upload pyfloat : Type}
        (e : env world upload pyfloat) (req : request upload pyfloat)
        (w w1 : world) (img flat : ndarray) (gray : raster) (buf : list Byte.byte) :
  decode_upload e req w = (Ok (Some img), w1) ->
  composite_alpha (cv_error e) img = Ok flat ->
  cvtColor_BGR2GRAY e flat = Ok gray ->
  imencode_png e (preprocess e req gray) = Ok (false, buf) ->
  vectorize e req w = (error_response (str "Failed to encode image"), w1).
Proof.
  intros Hd Hc Hg He. unfold vectorize, vectorize_body, bind. rewrite Hd.
  unfold lift. rewrite Hc, Hg, He. reflexivity.
Qed.

Lemma encode_failure_stops_early_witness :
  vectorize (demo_env_with (Ok (Some demo_image)) (Ok (false, [])) true)
            (demo_request [Byte.x00] "otsu") false =
  (error_response (str "Failed to encode image"), false).
Proof.
  apply encode_failure_stops_early with
    (img := demo_image) (flat := demo_image) (gray := [0; 255]) (buf := []);
    reflexivity.
Defined.





(** X11.  The optcurve and opttolerance fields are accepted and never used:
    changing them changes neither the response nor the world. *)
Theorem optcurve_opttolerance_ignored {world upload pyfloat : Type}
        (e : env world upload pyfloat) (req : request upload pyfloat)
        (oc : bool) (ot : pyfloat) (w : world) :
  vectorize e {| file := file req; turdsize := turdsize req;
                 alphamax := alphamax req; optcurve := oc; opttolerance := ot;
                 threshold := threshold req;
                 manualThreshold := manualThreshold req;
                 algorithm := algorithm req |} w =
  vectorize e req w.
Proof. destruct req. reflexivity. Qed.

(** ** Finding the root tag *)

Section SearchFacts.

Lemma first_occurrence (c : N) (s : text) :
  In c s -> exists a b, s = a ++ c :: b /\ ~ In c a.
Proof.
  induction s as [|x s IH]; intros Hin; [contradiction|].
  destruct (N.eq_dec x c) as [->|Hne].
  - exists [], s. split; [reflexivity|]. intros [].
  - destruct Hin as [Heq|Hin]; [congruence|].
    destruct (IH Hin) as (a & b & -> & Ha).
    exists (x :: a), b. split; [reflexivity|].
    intros [H|H]; [congruence|contradiction].
Qed.

(** A text that opens with <svg and holds a > later matches the pattern. *)
Lemma svg_tag_match_exists (r : text) :
  In gt r -> exists res, rmatch svg_tag_re (str "<svg" ++ r) = Some res.
Proof.
  intros Hin. destruct (first_occurrence gt r Hin) as (a & b & -> & Ha).
  eexists. apply (svg_tag_match_intro a b Ha).
Qed.

Lemma search_here (p : pattern) (s : text) (r : mres) :
  rmatch p s = Some r -> search p s = Some ([], r).
Proof. intros H. destruct s; cbn [search]; rewrite H; reflexivity. Qed.

(** Before the position [re.search] reports, the pattern matches nowhere. *)
Lemma search_leftmost (p : pattern) (s before m rest : text) (g : list text) :
  search p s = Some (before, (m, g, rest)) ->
  forall x y, before = x ++ y -> y <> [] -> rmatch p (y ++ m ++ rest) = None.
Proof.
  revert before. induction s as [|c s IH]; intros before H x y Hb Hy.
  - cbn [search] in H. destruct (rmatch p []); [|discriminate].
    injection H as <- _. symmetry in Hb. apply app_eq_nil in Hb.
    destruct Hb as (_ & ->). congruence.
  - cbn [search] in H. destruct (rmatch p (c :: s)) as [r|] eqn:Hm.
    + injection H as <- _. symmetry in Hb. apply app_eq_nil in Hb.
      destruct Hb as (_ & ->). congruence.
    + destruct (search p s) as [[before' r']|] eqn:Hs; [|discriminate].
      injection H as <- ->.
      destruct (search_split _ _ _ _ _ _ Hs) as (Hsplit & _).
      destruct x as [|c' x].
      * cbn [app] in Hb. subst y. cbn [app]. rewrite <- Hsplit. exact Hm.
      * cbn [app] in Hb. injection Hb as <- Hb.
        apply (IH before' eq_refl x y Hb Hy).
Qed.

End SearchFacts.

(** X12.  The root tag is found exactly when the text holds <svg with a >
    somewhere after it; a text without that is returned as it is. *)
Theorem root_tag_found_iff (s : text) (width height : Z) :
  ((exists r, search svg_tag_re s = Some r) <->
   (exists before a rest, s = before ++ str "<svg" ++ a ++ gt :: rest)) /\
  ((~ exists before a rest, s = before ++ str "<svg" ++ a ++ gt :: rest) ->
   rewrite_svg s width height = s).
Proof.
  assert (Hiff : (exists r, search svg_tag_re s = Some r) <->
                 (exists before a rest, s = before ++ str "<svg" ++ a ++ gt :: rest)).
  { split.
    - intros ([before [[m g] rest]] & H).
      destruct (search_split _ _ _ _ _ _ H) as (Hs & Hm).
      destruct (svg_tag_match_inv _ _ _ _ Hm) as (a & _ & -> & _ & _).
      exists before, a, rest. rewrite Hs, <- !app_assoc. reflexivity.
    - intros (before & a & rest & ->).
      induction before as [|c before IH].
      + cbn [app]. destruct (svg_tag_match_exists (a ++ gt :: rest)) as (res & Hres).
        { apply in_or_app. right. left. reflexivity. }
        exists ([], res). apply search_here. exact Hres.
      + destruct IH as ([before' r] & IH). cbn [app search].
        destruct (rmatch svg_tag_re (c :: before ++ str "<svg" ++ a ++ gt :: rest))
          as [r0|]; [eexists; reflexivity|].
        rewrite IH. eexists. reflexivity. }
  split; [exact Hiff|].
  intros Hno. apply rewrite_svg_not_found.
  destruct (search svg_tag_re s) as [r|] eqn:Hs; [|reflexivity].
  exfalso. apply Hno, Hiff. exists r. reflexivity.
Qed.

Lemma root_tag_found_iff_witness : rewrite_svg (str "no tag here") 10 20 = str "no tag here".
Proof.
  apply (root_tag_found_iff (str "no tag here") 10 20).
  intros (before & a & rest & H).
  assert (Hin : In gt (str "no tag here")).
  { rewrite H, !in_app_iff. right. right. right. left. reflexivity. }
  cbn in Hin. intuition discriminate.
Defined.

(** X13.  Only the first root tag is rewritten: the text before it and the
    text after it are kept character for character, and no <svg begins
    anywhere before the tag that is replaced. *)
Theorem only_first_tag_rewritten
        (s before m rest : text) (g : list text) (width height : Z) :
  search svg_tag_re s = Some (before, (m, g, rest)) ->
  (exists a,
      m = str "<svg" ++ a ++ [gt] /\ ~ In gt a /\
      s = before ++ m ++ rest /\
      rewrite_svg s width height = before ++ new_tag a width height ++ rest) /\
  (forall x y, before = x ++ y -> y <> [] ->
               starts_with (str "<svg") (y ++ m ++ rest) = None).
Proof.
  intros Hsearch. split.
  - destruct (rewrite_svg_found s before m rest g width height Hsearch)
      as (a & Ha & Hm & Hs & Hrw).
    exists a. auto.
  - intros x y Hb Hy.
    pose proof (search_leftmost _ _ _ _ _ _ Hsearch x y Hb Hy) as Hnone.
    destruct (starts_with (str "<svg") (y ++ m ++ rest)) as [r|] eqn:Hst;
      [|reflexivity].
    exfalso. apply starts_with_inv in Hst.
    destruct (search_split _ _ _ _ _ _ Hsearch) as (_ & Hm).
    destruct (svg_tag_match_inv _ _ _ _ Hm) as (a & _ & Hform & _ & _).
    assert (Hin : In gt r).
    { assert (Hall : In gt (y ++ m ++ rest)).
      { rewrite Hform, !in_app_iff. right. left. right. right. left. reflexivity. }
      rewrite Hst in Hall. apply in_app_or in Hall.
      destruct Hall as [Hsvg|Hr]; [|exact Hr].
      cbn in Hsvg. intuition discriminate. }
    destruct (svg_tag_match_exists r Hin) as (res & Hres).
    rewrite Hst, Hres in Hnone. discriminate.
Qed.

Lemma only_first_tag_rewritten_witness :
  starts_with (str "<svg") (str "x" ++ str "<svg>" ++ str "<svg>") = None.
Proof.
  apply (proj2 (only_first_tag_rewritten (str "ax<svg><svg>") (str "ax") (str "<svg>")
                  (str "<svg>") [[]] 1 1 eq_refl) (str "a") (str "x")).
  - reflexivity.
  - discriminate.
Defined.

(** ** What the rewriter deletes and what it keeps *)

Section DeletionFacts.

Lemma subseq_refl (s : text) : subseq s s.
Proof. induction s; constructor; assumption. Qed.

Lemma subseq_drop_prefix (m a b : text) : subseq a b -> subseq a (m ++ b).
Proof. intros H. induction m; [exact H|]. cbn [app]. constructor. exact IHm. Qed.

Lemma subseq_length (a b : text) :
  subseq a b -> (List.length a <= List.length b)%nat.
Proof. induction 1; cbn [List.length]; lia. Qed.

Lemma subseq_In (a b : text) (c : N) : subseq a b -> In c a -> In c b.
Proof.
  induction 1 as [|x a b _ IH|x a b _ IH]; intros Hin.
  - exact Hin.
  - destruct Hin as [->|Hin]; [left; reflexivity|right; auto].
  - right. auto.
Qed.

Lemma sub_empty_aux_subseq (p : pattern) (fuel : nat) (s : text) :
  subseq (sub_empty_aux p fuel s) s.
Proof.
  revert s. induction fuel as [|fuel IH]; intros s; [apply subseq_refl|].
  cbn [sub_empty_aux]. destruct s as [|c s]; [constructor|].
  destruct (rmatch p (c :: s)) as [[[m g] rest]|] eqn:Hm.
  - rewrite (rmatch_split _ _ _ _ _ Hm). apply subseq_drop_prefix, IH.
  - constructor. apply IH.
Qed.

End DeletionFacts.

(** X14.  Removing the sizing attributes only deletes characters: whatever
    the attribute text is, the result is a subsequence of it, so it is never
    longer and never gains a character (a > in particular) it did not
    have. *)
Theorem strip_sizing_only_deletes (attrs : text) :
  subseq (strip_sizing attrs) attrs /\
  (List.length (strip_sizing attrs) <= List.length attrs)%nat /\
  (forall c, In c (strip_sizing attrs) -> In c attrs).
Proof.
  assert (H : subseq (strip_sizing attrs) attrs)
    by apply sub_empty_aux_subseq.
  split; [exact H|]. split; [apply subseq_length; exact H|].
  intros c. apply subseq_In. exact H.
Qed.

(** X15.  An attribute text without any double quote (the empty one of a bare
    <svg> included) is kept whole: the new tag is the old one with the five
    attributes appended. *)
Theorem unquoted_attrs_kept (attrs : text) (width height : Z) :
  ~ In dquote attrs ->
  new_tag attrs width height =
  str "<svg" ++ attrs ++ responsive_attrs width height ++ [gt].
Proof.
  intros Hq. unfold new_tag, new_tag_attrs.
  rewrite (strip_without_quote attrs Hq), <- app_assoc. reflexivity.
Qed.

Lemma unquoted_attrs_kept_witness :
  rewrite_svg (str "<svg>") 3 4 = str "<svg" ++ responsive_attrs 3 4 ++ [gt].
Proof.
  change (rewrite_svg (str "<svg>") 3 4) with (new_tag [] 3 4).
  apply (unquoted_attrs_kept [] 3 4). intros [].
Defined.

Section KeepFacts.

Lemma is_sizing_true (n : text) : is_sizing n = true <-> In n sizing_names.
Proof.
  unfold is_sizing. rewrite existsb_exists. split.
  - intros (t & Hin & Ht). destruct (text_eq_dec n t) as [->|]; [exact Hin|discriminate].
  - intros Hin. exists n. split; [exact Hin|].
    destruct (text_eq_dec n n); [reflexivity|congruence].
Qed.

Lemma is_sizing_false (n : text) : is_sizing n = false <-> ~ In n sizing_names.
Proof.
  rewrite <- is_sizing_true. destruct (is_sizing n); split; congruence.
Qed.

Lemma ends_with_equals_tail (c : N) (v : text) :
  ends_with_equals v -> ends_with_equals (c :: v).
Proof. intros (v0 & ->). exists (c :: v0). reflexivity. Qed.

(** Inside a value that does not end in an equals sign no match starts. *)
Lemma strip_safe_value (v r : text) :
  ~ In dquote v -> ~ ends_with_equals v ->
  strip_sizing (v ++ dquote :: r) = v ++ dquote :: strip_sizing r.
Proof.
  induction v as [|c v IH]; intros Hq Hsafe.
  - cbn [app]. apply strip_dquote.
  - cbn [app]. rewrite strip_skip.
    + f_equal. apply IH.
      * intros H. apply Hq. right. exact H.
      * intros H. apply Hsafe, ends_with_equals_tail, H.
    + destruct (rmatch sizing_attr_re (c :: v ++ dquote :: r))
        as [[[m g] rest]|] eqn:Hm; [|reflexivity].
      exfalso. apply sizing_match_inv in Hm.
      destruct Hm as (sp & t & body & _ & Hsp & Hin & _ & Heq).
      replace (sp ++ t ++ [equals; dquote] ++ body ++ dquote :: rest)
        with ((sp ++ t ++ [equals]) ++ dquote :: body ++ dquote :: rest) in Heq
        by (rewrite <- !app_assoc; reflexivity).
      change (c :: v ++ dquote :: r) with ((c :: v) ++ dquote :: r) in Heq.
      destruct (first_unique dquote _ _ _ _ Hq
                  (match_head_no_dquote sp t Hsp Hin) Heq) as (Hv & _).
      apply Hsafe. exists (sp ++ t). rewrite Hv, <- app_assoc. reflexivity.
Qed.

Lemma strip_safe_attrs (l : list attr) (tail : text) :
  Forall wf_attr l ->
  Forall (fun a => ~ ends_with_equals (a_value a)) l ->
  ~ In dquote tail ->
  strip_sizing (render_all l ++ tail) = render_all (keep_other l) ++ tail.
Proof.
  intros Hwf Hsafe Htail. induction Hwf as [|a l Ha Hl IH].
  - cbn [render_all flat_map keep_other filter app].
    apply strip_without_quote. exact Htail.
  - pose proof (Forall_inv Hsafe) as Hsa. apply Forall_inv_tail in Hsafe.
    specialize (IH Hsafe). rewrite render_all_cons, render_app.
    unfold keep_other. cbn [filter]. fold (keep_other l).
    destruct (is_sizing (a_name a)) eqn:Hn; cbn [negb].
    + apply is_sizing_true in Hn.
      destruct Ha as (Hne & Hsp & _ & _ & Hv).
      rewrite (strip_match _ _ _ _
                 (sizing_match_intro (a_space a) (a_name a) (a_value a)
                    (render_all l ++ tail) Hne
                    (xml_spaces_are_spaces _ Hsp) Hn Hv)).
      exact IH.
    + apply is_sizing_false in Hn.
      rewrite (strip_other_attr_head (a_space a) (a_name a) _
                 (xml_spaces_are_spaces _ (proj1 (proj2 Ha)))
                 (proj1 (proj2 (proj2 Ha)))
                 (proj1 (proj2 (proj2 (proj2 Ha)))) Hn).
      rewrite (strip_safe_value (a_value a) _
                 (proj2 (proj2 (proj2 (proj2 Ha)))) Hsa).
      rewrite IH, render_all_cons, render_app. reflexivity.
Qed.

End KeepFacts.

(** X16.  When every attribute of the root tag is written name="value" and no
    value ends in an equals sign, the rewriter removes exactly the attributes
    called width, height, viewBox or style and keeps every other attribute,
    with its white space, name and value, in the original order; the five new
    attributes follow. *)
Theorem other_attributes_kept (l : list attr) (tail : text) (width height : Z) :
  Forall wf_attr l ->
  Forall (fun a => ~ ends_with_equals (a_value a)) l ->
  ~ In dquote tail ->
  strip_sizing (render_all l ++ tail) = render_all (keep_other l) ++ tail /\
  new_tag (render_all l ++ tail) width height =
  str "<svg" ++ render_all (keep_other l) ++ tail ++
      responsive_attrs width height ++ [gt] /\
  forall a, In a (keep_other l) <-> In a l /\ ~ In (a_name a) sizing_names.
Proof.
  intros Hwf Hsafe Htail.
  pose proof (strip_safe_attrs l tail Hwf Hsafe Htail) as Hstrip.
  split; [exact Hstrip|]. split.
  - unfold new_tag, new_tag_attrs. rewrite Hstrip, <- !app_assoc. reflexivity.
  - intros a. unfold keep_other. rewrite filter_In, negb_true_iff, is_sizing_false.
    reflexivity.
Qed.

Lemma other_attributes_kept_witness :
  strip_sizing (render_all demo_attrs) =
  render_all [ {| a_space := str " "; a_name := str "version";
                  a_value := str "1.1" |} ].
Proof.
  destruct (other_attributes_kept demo_attrs [] 2 1) as (Hstrip & _).
  - unfold demo_attrs.
    repeat constructor; cbn [a_space a_name a_value];
      try discriminate; intros H; cbn in H; intuition discriminate.
  - unfold demo_attrs. repeat constructor; cbn [a_value];
      intros (v0 & H); destruct v0 as [|? [|? [|? [|? ?]]]]; discriminate.
  - intros [].
  - rewrite !app_nil_r in Hstrip. exact Hstrip.
Defined.

(** X17.  preserveAspectRatio is appended but is not among the names that are
    removed: under the conditions of X16, a root tag that already carries it
    comes out with it at least twice, and the names of the rewritten tag are
    the kept names followed by the five new ones. *)
Theorem preserveAspectRatio_duplicated
        (l : list attr) (tail : text) (width height : Z) :
  Forall wf_attr l ->
  Forall (fun a => ~ ends_with_equals (a_value a)) l ->
  Forall (fun c => xml_space c = true) tail ->
  attr_names (new_tag_attrs (render_all l ++ tail) width height) =
    Some (map a_name (keep_other l) ++
          [str "width"; str "height"; str "viewBox";
           str "preserveAspectRatio"; str "style"]) /\
  (In (str "preserveAspectRatio") (map a_name l) ->
   exists k,
     attr_count (str "preserveAspectRatio")
                (new_tag_attrs (render_all l ++ tail) width height) = Some k /\
     (2 <= k)%nat).
Proof.
  intros Hwf Hsafe Htail.
  assert (Hq : ~ In dquote tail).
  { apply space_not_dquote, xml_spaces_are_spaces, Htail. }
  assert (Hnames :
    attr_names (new_tag_attrs (render_all l ++ tail) width height) =
    Some (map a_name (keep_other l) ++
          [str "width"; str "height"; str "viewBox";
           str "preserveAspectRatio"; str "style"])).
  { unfold new_tag_attrs. rewrite (strip_safe_attrs l tail Hwf Hsafe Hq).
    rewrite <- app_assoc, responsive_list_render.
    unfold render_all at 1 2. rewrite <- flat_map_app. fold (render_all
      (keep_other l ++ responsive_list tail width height)).
    unfold attr_names. rewrite parse_render_all.
    - rewrite map_app, responsive_list_names. reflexivity.
    - apply Forall_app. split.
      + unfold keep_other. apply Forall_forall. intros a Ha.
        apply filter_In in Ha. rewrite Forall_forall in Hwf. apply Hwf, Ha.
      + apply responsive_list_wf. exact Htail. }
  split; [exact Hnames|].
  intros Hin. unfold attr_count. rewrite Hnames. cbn [option_map].
  eexists. split; [reflexivity|].
  rewrite count_occ_app.
  assert (Hkept : In (str "preserveAspectRatio") (map a_name (keep_other l))).
  { apply in_map_iff in Hin. destruct Hin as (a & Hname & Ha).
    apply in_map_iff. exists a. split; [exact Hname|].
    unfold keep_other. apply filter_In. split; [exact Ha|].
    rewrite Hname. reflexivity. }
  apply (count_occ_In text_eq_dec) in Hkept.
  assert (Hnew : count_occ text_eq_dec
                   [str "width"; str "height"; str "viewBox";
                    str "preserveAspectRatio"; str "style"]
                   (str "preserveAspectRatio") = 1%nat) by (vm_compute; reflexivity).
  rewrite Hnew. lia.
Qed.

Lemma preserveAspectRatio_duplicated_witness :
  exists k,
    attr_count (str "preserveAspectRatio")
      (new_tag_attrs
         (render_all [ {| a_space := str " "; a_name := str "preserveAspectRatio";
                          a_value := str "none" |} ]) 2 1) = Some k /\
    (2 <= k)%nat.
Proof.
  destruct (preserveAspectRatio_duplicated
              [ {| a_space := str " "; a_name := str "preserveAspectRatio";
                   a_value := str "none" |} ] [] 2 1) as (_ & H).
  - repeat constructor; cbn [a_space a_name a_value];
      try discriminate; intros H; cbn in H; intuition discriminate.
  - repeat constructor; cbn [a_value];
      intros (v0 & H); destruct v0 as [|? [|? [|? [|? [|? ?]]]]]; discriminate.
  - constructor.
  - rewrite app_nil_r in H. apply H. left. reflexivity.
Defined.

(** ** The stand-alone script *)

(** X18.  When SampleImage.jpeg cannot be read the script prints
    "SampleImage.jpeg not found" and exits with status 1; nothing is written
    and the vectorizer is not run. *)
Theorem script_missing_image {world : Type} (e : script_env world) (w w1 : world) :
  sc_imread e "SampleImage.jpeg" w = (Ok None, w1) ->
  test_vtracer e w = (1, [str "SampleImage.jpeg not found"], w1).
Proof.
  intros H. unfold test_vtracer, script_body, bind, on_world, print, ret.
  cbn [fst snd]. rewrite H. reflexivity.
Qed.

Lemma script_missing_image_witness :
  test_vtracer demo_script_env false = (1, [str "SampleImage.jpeg not found"], false).
Proof. apply script_missing_image. reflexivity. Defined.

(** X19.  The script has three ways to end.  Status 1 with the single line
    "SampleImage.jpeg not found"; status 0 with the three progress lines, the
    last telling whether the output file exists; or status 0 after an
    exception, whose text is the last line, "Test failed: ...", following the
    progress lines printed until then.  Status 1 happens only when the image
    is missing. *)
Theorem script_outcomes {world : Type} (e : script_env world) (w : world) :
  (exists w1,
      sc_imread e "SampleImage.jpeg" w = (Ok None, w1) /\
      test_vtracer e w = (1, [str "SampleImage.jpeg not found"], w1)) \/
  (exists b w',
      test_vtracer e w =
      (0, [str "test_input.png written"; str "test_output.svg written";
           str "File exists: " ++ py_bool b], w')) \/
  (exists msg progress w',
      test_vtracer e w = (0, progress ++ [str "Test failed: " ++ msg], w') /\
      (progress = [] \/ progress = [str "test_input.png written"])).
Proof.
  unfold test_vtracer, script_body, bind, on_world, print, ret, lift.
  cbn [fst snd].
  destruct (sc_imread e "SampleImage.jpeg" w) as [[[img|]|msg] w1] eqn:Hread;
    cbn [fst snd].
  - destruct (sc_cvtColor_BGR2GRAY e img) as [gray|msg]; cbn [fst snd].
    + destruct (sc_imwrite e "test_input.png" (threshold_binary gray 128 255) w1)
        as [[ok|msg] w2]; cbn [fst snd].
      * destruct (sc_convert e "test_input.png" "test_output.svg" "binary" 2 60 3 w2)
          as [[[]|msg] w3]; cbn [fst snd app].
        -- right. left. eexists _, _. reflexivity.
        -- right. right. exists msg, [str "test_input.png written"], w3. auto.
      * right. right. exists msg, [], w2. auto.
    + right. right. exists msg, [], w1. auto.
  - left. exists w1. auto.
  - right. right. exists msg, [], w1. auto.
Qed.

(** ** Inversion *)

(** X20.  Inverting a raster of 8-bit values gives 8-bit values again and is
    its own inverse, so the polarity step loses nothing. *)
Theorem bitwise_not_involutive (p : raster) :
  Forall is_u8 p ->
  Forall is_u8 (bitwise_not p) /\ bitwise_not (bitwise_not p) = p.
Proof.
  intros Hp. unfold bitwise_not. split.
  - apply Forall_map. apply (Forall_impl _ (P := is_u8)); [|exact Hp].
    intros v Hv. rewrite (not_u8_spec v Hv). unfold is_u8 in *. lia.
  - rewrite map_map. rewrite <- (map_id p) at 2. apply map_ext_in.
    intros v Hin. rewrite Forall_forall in Hp. specialize (Hp v Hin).
    rewrite (not_u8_spec v Hp).
    rewrite not_u8_spec by (unfold is_u8 in *; lia). lia.
Qed.

Lemma bitwise_not_involutive_witness :
  bitwise_not (bitwise_not [0; 17; 255]) = [0; 17; 255].
Proof.
  apply (bitwise_not_involutive [0; 17; 255]).
  repeat constructor; unfold is_u8; lia.
Defined.
